(** * Marking operations for outside compilation

    Shallow embedding of the pass
    [tensorflow/compiler/mlir/tensorflow/transforms/mark_ops_for_outside_compilation.cc]
    and the properties of its two phases: the walk that marks unsupported
    operations of a device cluster and the walk that removes the marks
    subsumed by a marked ancestor.

    The pass never creates, moves or erases an operation: it only writes the
    attribute dictionaries.  The operation tree is therefore a fixed value
    ([Operation]), an [Operation*] is the position of the operation in that
    tree ([OpPtr]), and the mutable part of the IR is a store from operation
    pointers to attribute dictionaries ([Attrs]) that every callback threads
    through. *)

From Stdlib Require Import Ascii String.
From stdpp Require Import base gmap strings list.

Open Scope string_scope.
Open Scope list_scope.
Set Warnings "-register-all".

(** ** Types and values *)

(** The types the pass distinguishes: [TF::StringType] against everything
    else, and shaped types (tensors) that carry an element type. *)
Inductive Type_ : Type :=
  | StringType
  | IntegerType (width : nat)
  | FloatType (width : nat)
  | ResourceType
  | VariantType
  | RankedTensorType (shape : list Z) (elementType : Type_)
  | UnrankedTensorType (elementType : Type_).

(** [getElementTypeOrSelf]: the element type of a shaped type, the type
    itself otherwise. *)
Definition getElementTypeOrSelf (ty : Type_) : Type_ :=
  match ty with
  | RankedTensorType _ elt => elt
  | UnrankedTensorType elt => elt
  | _ => ty
  end.

Definition isa_StringType (ty : Type_) : bool :=
  match ty with StringType => true | _ => false end.

(** Position of an operation inside its parent: region number, block number
    inside the region, index inside the block. *)
Definition OpPos : Type := nat * nat * nat.

(** An [Operation*]: the positions leading to the operation, innermost
    first.  The tail is the pointer of the parent operation; the module is
    the empty list. *)
Definition OpPtr : Type := list OpPos.

(** A [Region*]: the operation that owns the region and the region number. *)
Definition RegionPtr : Type := OpPtr * nat.

Definition getParentOp (op : OpPtr) : option OpPtr :=
  match op with
  | [] => None
  | _ :: parent_op => Some parent_op
  end.

(** [Operation::getParentRegion]: the region that contains the operation. *)
Definition getParentRegion (op : OpPtr) : option RegionPtr :=
  match op with
  | [] => None
  | (r, _, _) :: parent_op => Some (parent_op, r)
  end.

(** An SSA value is the result of an operation or the argument of a block. *)
Inductive Value : Type :=
  | OpResult (definingOp : OpPtr) (resultNumber : nat) (ty : Type_)
  | BlockArgument (owner : OpPtr) (regionNumber blockNumber argNumber : nat)
      (ty : Type_).

Definition getType (v : Value) : Type_ :=
  match v with
  | OpResult _ _ ty => ty
  | BlockArgument _ _ _ _ ty => ty
  end.

(** [Value::getParentRegion]: the region in which the value is defined. *)
Definition Value_getParentRegion (v : Value) : option RegionPtr :=
  match v with
  | OpResult d _ _ => getParentRegion d
  | BlockArgument owner r _ _ _ => Some (owner, r)
  end.

(** ** Operations *)

(** An operation name is the dialect namespace, a dot and the name inside
    the dialect. *)
Definition OperationName : Type := string.

(** [OperationName::getDialect]: the part before the first dot. *)
Fixpoint getDialectNamespace (name : OperationName) : string :=
  match name with
  | EmptyString => EmptyString
  | String c rest =>
      if Ascii.eqb c "."%char then EmptyString
      else String c (getDialectNamespace rest)
  end.

(** The immutable part of an operation: name, operands, result types and
    regions; a region is a list of blocks, a block a list of operations. *)
Inductive Operation : Type :=
  mkOperation {
    getName : OperationName;
    getOperands : list Value;
    getResults : list Type_;
    getRegions : list (list (list Operation))
  }.

Abbreviation Block := (list Operation).
Abbreviation Region := (list Block).

(** ** Attributes *)

Inductive Attribute : Type :=
  | StringAttr (value : string)
  | BoolAttr (value : bool)
  | IntegerAttr (value : Z)
  | UnitAttr.

(** The attribute dictionaries of all operations of the module. *)
Definition Attrs : Type := OpPtr → gmap string Attribute.

Definition getAttr (st : Attrs) (op : OpPtr) (name : string) : option Attribute :=
  st op !! name.

Definition setAttr (op : OpPtr) (name : string) (a : Attribute) (st : Attrs) : Attrs :=
  fun q => if decide (q = op) then <[name := a]> (st q) else st q.

Definition removeAttr (op : OpPtr) (name : string) (st : Attrs) : Attrs :=
  fun q => if decide (q = op) then delete name (st q) else st q.

(** [getAttrOfType<StringAttr>] is non-null. *)
Definition hasStringAttr (st : Attrs) (op : OpPtr) (name : string) : bool :=
  match getAttr st op name with
  | Some (StringAttr _) => true
  | _ => false
  end.

(** [getAttrOfType<BoolAttr>] is non-null and its value is true. *)
Definition hasTrueBoolAttr (st : Attrs) (op : OpPtr) (name : string) : bool :=
  match getAttr st op name with
  | Some (BoolAttr b) => b
  | _ => false
  end.

(** ** Walks *)

Section IndexedWalk.
Context {A B : Type} (f : nat → A → list B).

(** Visits the elements of a list in order, numbering them from [k]. *)
Fixpoint walkIndexed (k : nat) (l : list A) : list B :=
  match l with
  | [] => []
  | x :: l' => f k x ++ walkIndexed (S k) l'
  end.
End IndexedWalk.

(** [Operation::walk]: the operations nested under [op], regions, blocks and
    operations in order, and then [op] itself (post-order); every visited
    operation comes with its pointer. *)
Fixpoint walkOperation (p : OpPtr) (op : Operation) : list (OpPtr * Operation) :=
  walkIndexed (fun r region =>
    walkIndexed (fun b block =>
      walkIndexed (fun i nested => walkOperation ((r, b, i) :: p) nested)
        0 block)
      0 region)
    0 (getRegions op)
  ++ [(p, op)].

(** [Block::walk] for block [b] of region [r] of the operation at [owner]. *)
Definition walkBlock (owner : OpPtr) (r b : nat) (block : Block)
  : list (OpPtr * Operation) :=
  walkIndexed (fun i nested => walkOperation ((r, b, i) :: owner) nested) 0 block.

(** [Region::walk] for region [r] of the operation at [owner]. *)
Definition walkRegion (owner : OpPtr) (r : nat) (region : Region)
  : list (OpPtr * Operation) :=
  walkIndexed (fun b block => walkBlock owner r b block) 0 region.

(** ** Context, dialects and rewrite patterns *)

(** A loaded dialect is identified by its namespace. *)
Definition Dialect : Type := string.

Record MLIRContext : Type := { loadedDialects : gset string }.

(** [MLIRContext::getLoadedDialect]: null when the dialect is not loaded. *)
Definition getLoadedDialect (ctx : MLIRContext) (name : string) : option Dialect :=
  if decide (name ∈ loadedDialects ctx) then Some name else None.

(** [Operation::getDialect]: the loaded dialect the operation name belongs
    to, null when that dialect is not loaded. *)
Definition getDialect (ctx : MLIRContext) (op : Operation) : option Dialect :=
  getLoadedDialect ctx (getDialectNamespace (getName op)).

(** A rewrite pattern, reduced to what the pass reads of it: the root kind,
    which a pattern that matches any operation does not have. *)
Record Pattern : Type := { getRootKind : option OperationName }.

Inductive LogicalResult : Type := success | failure.

Definition failed (r : LogicalResult) : bool :=
  match r with failure => true | success => false end.

Inductive WalkResult : Type := advance | interrupt.

Definition wasInterrupted (r : WalkResult) : bool :=
  match r with interrupt => true | advance => false end.

(** Modelled from the spec: the operation-kind identifiers declared by the
    dialect headers [tf_ops.h] and [tf_device.h], which are not part of the
    sources at hand: the conditional-region, loop-region and yield
    control-flow primitives and the two embedding kinds of the target
    dialect, and the cluster boundary of the device dialect. *)
Module TF.
Definition IfRegionOp : OperationName := "tf.IfRegion".
Definition WhileRegionOp : OperationName := "tf.WhileRegion".
Definition YieldOp : OperationName := "tf.Yield".
Definition RecvTPUEmbeddingActivationsOp : OperationName :=
  "tf.RecvTPUEmbeddingActivations".
Definition SendTPUEmbeddingGradientsOp : OperationName :=
  "tf.SendTPUEmbeddingGradients".
End TF.

Module tf_device.
Definition ClusterOp : OperationName := "tf_device.cluster".
End tf_device.

(** [llvm::isa<Kind>(op)]. *)
Definition isa (kind : OperationName) (op : Operation) : bool :=
  bool_decide (getName op = kind).

(** A [Block*]: where the block sits and the operations it holds. *)
Record BlockRef : Type := {
  blockOwner : OpPtr;
  blockRegion : nat;
  blockNumber : nat;
  blockOps : Block
}.

Definition Block_walk (block : BlockRef) : list (OpPtr * Operation) :=
  walkBlock (blockOwner block) (blockRegion block) (blockNumber block)
    (blockOps block).

(** [ClusterOp::GetBody]: the first block of region 0.  A cluster has one
    region of one block; the empty block stands for the shapes the
    verifier rejects. *)
Definition GetBody (cluster : OpPtr * Operation) : BlockRef :=
  {| blockOwner := cluster.1; blockRegion := 0; blockNumber := 0;
     blockOps := match getRegions cluster.2 with
                 | (front :: _) :: _ => front
                 | _ => []
                 end |}.

(** [Operation::walk] with a callback that returns a [WalkResult]: the walk
    stops at the first interrupt. *)
Fixpoint walkInterruptible {A : Type}
    (callback : A → Attrs → WalkResult * Attrs) (ops : list A) (st : Attrs)
  : WalkResult * Attrs :=
  match ops with
  | [] => (advance, st)
  | op :: rest =>
      match callback op st with
      | (interrupt, st') => (interrupt, st')
      | (advance, st') => walkInterruptible callback rest st'
      end
  end.

(** [Operation::walk] with a callback that returns nothing. *)
Definition walkVoid {A : Type} (callback : A → Attrs → Attrs) (ops : list A)
    (st : Attrs) : Attrs :=
  fold_left (fun st op => callback op st) ops st.

(** [module.walk] with a callback on [tf_device::ClusterOp]: the cluster
    operations of the module, in walk order. *)
Definition clustersOf (module : Operation) : list (OpPtr * Operation) :=
  filter (fun op => isa tf_device.ClusterOp op.2 = true) (walkOperation [] module).

(** ** The pass *)

Definition kXlaOutsideCompilationAttr : string := "_xla_outside_compilation".
Definition kAllowSoftPlacementAttr : string := "allow_soft_placement".

Definition AddSupportedControlFlowOps (supported_ops : gset OperationName)
  : gset OperationName :=
  {[ TF.YieldOp ]} ∪ ({[ TF.WhileRegionOp ]} ∪ ({[ TF.IfRegionOp ]} ∪ supported_ops)).

Definition AddRewrittenEmbeddingOps (supported_ops : gset OperationName)
  : gset OperationName :=
  {[ TF.SendTPUEmbeddingGradientsOp ]}
    ∪ ({[ TF.RecvTPUEmbeddingActivationsOp ]} ∪ supported_ops).

Definition HasStringOperand (op : Operation) : bool :=
  existsb (fun operand => isa_StringType (getElementTypeOrSelf (getType operand)))
    (getOperands op).

Definition HasStringResult (op : Operation) : bool :=
  existsb (fun result => isa_StringType (getElementTypeOrSelf result))
    (getResults op).

Definition MatchesPattern (op : Operation) (supported_ops : gset OperationName)
  : bool :=
  bool_decide (getName op ∈ supported_ops).

(** The regions that properly enclose a region of the operation at
    [owner]: the parent region of that operation, and so on up to the
    module. *)
Fixpoint properAncestors (owner : OpPtr) : list RegionPtr :=
  match owner with
  | [] => []
  | (r, _, _) :: parent_op => (parent_op, r) :: properAncestors parent_op
  end.

Definition definedIn (regions : list RegionPtr) (v : Value) : bool :=
  match Value_getParentRegion v with
  | Some reg => bool_decide (reg ∈ regions)
  | None => false
  end.

(** [mlir::visitUsedValuesDefinedAbove(region, region, callback)]: the
    operands, in walk order, of the operations nested in the region whose
    value is defined in a proper ancestor of the region. *)
Definition visitUsedValuesDefinedAbove (owner : OpPtr) (r : nat) (region : Region)
  : list Value :=
  flat_map (fun op => filter (fun v => definedIn (properAncestors owner) v = true)
                        (getOperands op.2))
    (walkRegion owner r region).

(** The loop of [HasCapturedStringOperand] over the regions of the operation
    at [owner], from region number [r] on. *)
Fixpoint HasCapturedStringOperand_from (owner : OpPtr) (r : nat)
    (regions : list Region) (string_operand : bool) : bool :=
  match regions with
  | [] => string_operand
  | region :: rest =>
      let string_operand :=
        fold_left (fun flag operand =>
                     if isa_StringType (getElementTypeOrSelf (getType operand))
                     then true else flag)
          (visitUsedValuesDefinedAbove owner r region) string_operand in
      if string_operand then string_operand
      else HasCapturedStringOperand_from owner (S r) rest string_operand
  end.

Definition HasCapturedStringOperand (op : OpPtr * Operation) : bool :=
  HasCapturedStringOperand_from op.1 0 (getRegions op.2) false.

(** The loop of [UnmarkChildren] over the parents of [iter_op]: true when
    it leaves through [break]. *)
Fixpoint hasMarkedParent (st : Attrs) (iter_op : OpPtr) : bool :=
  match iter_op with
  | [] => false
  | _ :: parent_op =>
      if hasStringAttr st parent_op kXlaOutsideCompilationAttr then true
      else hasMarkedParent st parent_op
  end.

(** The callback of the walk of [UnmarkChildren]. *)
Definition unmarkCallback (op : OpPtr * Operation) (st : Attrs) : Attrs :=
  if negb (hasStringAttr st op.1 kXlaOutsideCompilationAttr) then st
  else
    let remove_attr := hasMarkedParent st op.1 in
    if remove_attr then removeAttr op.1 kXlaOutsideCompilationAttr st else st.

(** [UnmarkChildren], for any order [visit] in which the operations of the
    block are presented to the callback. *)
Definition UnmarkChildren_in (visit : list (OpPtr * Operation)) (st : Attrs)
  : Attrs :=
  walkVoid unmarkCallback visit st.

Definition UnmarkChildren (block : BlockRef) (st : Attrs) : Attrs :=
  UnmarkChildren_in (Block_walk block) st.

(** The loop of [runOnOperation] over the patterns; [None] is the
    dereference of an empty [Optional]. *)
Fixpoint insertRootKinds (patterns : list Pattern)
    (supported_ops : gset OperationName) : option (gset OperationName) :=
  match patterns with
  | [] => Some supported_ops
  | pattern :: rest =>
      match getRootKind pattern with
      | Some kind => insertRootKinds rest ({[ kind ]} ∪ supported_ops)
      | None => None
      end
  end.

(** What a run of the pass leaves behind: the attributes, the diagnostics
    emitted on the module, and whether [signalPassFailure] was called. *)
Record PassResult : Type := {
  resultAttrs : Attrs;
  diagnostics : list string;
  passFailed : bool
}.

Section Pass.
(** The context of the module, and the two entry points of the
    legalization library the pass calls. *)
Variable ctx : MLIRContext.
Variable IsOpAllowedTf2XlaFallback : Operation → bool.
Variable PopulateLegalizeTfPatterns : MLIRContext → list Pattern.

Definition IsSupportedOp (op : Operation) (supported_ops : gset OperationName)
    (tf_dialect : option Dialect) : bool :=
  if negb (bool_decide (getDialect ctx op = tf_dialect)) then true
  else
    negb (HasStringOperand op) && negb (HasStringResult op)
    && (MatchesPattern op supported_ops || IsOpAllowedTf2XlaFallback op).

(** The callback of the walk of [MarkUncompilableOps]. *)
Definition markCallback (tf_dialect : option Dialect)
    (supported_ops : gset OperationName) (op : OpPtr * Operation)
    (st : Attrs) : Attrs :=
  let st :=
    if negb (IsSupportedOp op.2 supported_ops tf_dialect)
    then setAttr op.1 kXlaOutsideCompilationAttr (StringAttr "auto") st
    else st in
  if isa TF.IfRegionOp op.2 || isa TF.WhileRegionOp op.2 then
    if HasCapturedStringOperand op
    then setAttr op.1 kXlaOutsideCompilationAttr (StringAttr "auto") st
    else st
  else st.

Definition MarkUncompilableOps (tf_dialect : option Dialect) (block : BlockRef)
    (supported_ops : gset OperationName) (st : Attrs)
  : LogicalResult * Attrs :=
  (success, walkVoid (markCallback tf_dialect supported_ops) (Block_walk block) st).

(** The first walk of [runOnOperation] over the clusters (the Walker). *)
Definition markClusters (tf_dialect : option Dialect)
    (supported_ops : gset OperationName) (module : Operation) (st : Attrs)
  : WalkResult * Attrs :=
  walkInterruptible
    (fun cluster st =>
       if negb (hasTrueBoolAttr st cluster.1 kAllowSoftPlacementAttr)
       then (advance, st)
       else
         let '(r, st') :=
           MarkUncompilableOps tf_dialect (GetBody cluster) supported_ops st in
         if failed r then (interrupt, st') else (advance, st'))
    (clustersOf module) st.

(** The second walk of [runOnOperation] over the clusters (the Pruner). *)
Definition unmarkClusters (module : Operation) (st : Attrs) : Attrs :=
  walkVoid
    (fun cluster st =>
       if negb (hasTrueBoolAttr st cluster.1 kAllowSoftPlacementAttr) then st
       else UnmarkChildren (GetBody cluster) st)
    (clustersOf module) st.

(** The set [supported_ops] that [runOnOperation] builds. *)
Definition buildSupportedOps (patterns : list Pattern)
  : option (gset OperationName) :=
  match insertRootKinds patterns ∅ with
  | Some supported_ops =>
      Some (AddRewrittenEmbeddingOps (AddSupportedControlFlowOps supported_ops))
  | None => None
  end.

(** [MarkOpsForOutsideCompilation::runOnOperation] on [module] whose
    attributes are [st]; [None] when the run dereferences the missing root
    kind of a pattern. *)
Definition runOnOperation (module : Operation) (st : Attrs) : option PassResult :=
  let tf_dialect := getLoadedDialect ctx "tf" in
  match tf_dialect with
  | None =>
      Some {| resultAttrs := st;
              diagnostics := ["'tf' dialect is not registered"];
              passFailed := true |}
  | Some _ =>
      match buildSupportedOps (PopulateLegalizeTfPatterns ctx) with
      | None => None
      | Some supported_ops =>
          let '(result, st) := markClusters tf_dialect supported_ops module st in
          if wasInterrupted result
          then Some {| resultAttrs := st; diagnostics := []; passFailed := true |}
          else Some {| resultAttrs := unmarkClusters module st;
                       diagnostics := []; passFailed := false |}
      end
  end.
End Pass.

(** ** Positions, ancestors and the operations of a module *)

(** [a] is a strict ancestor of [q]: one or more [getParentOp] steps lead
    from [q] to [a]. *)
Inductive properAncestor (a : OpPtr) : OpPtr → Prop :=
  | properAncestor_parent q :
      getParentOp q = Some a → properAncestor a q
  | properAncestor_step q parent_op :
      getParentOp q = Some parent_op → properAncestor a parent_op →
      properAncestor a q.

(** [a] is [q] or a strict ancestor of [q]. *)
Definition ancestorOrSelf (a q : OpPtr) : Prop := a = q ∨ properAncestor a q.

(** The operation reached from [op] by the positions of [path], outermost
    first. *)
Fixpoint getNested (op : Operation) (path : list OpPos) : option Operation :=
  match path with
  | [] => Some op
  | (r, b, i) :: path' =>
      match getRegions op !! r with
      | Some region =>
          match region !! b with
          | Some block =>
              match block !! i with
              | Some nested => getNested nested path'
              | None => None
              end
          | None => None
          end
      | None => None
      end
  end.

(** The marker is present on [op]. *)
Definition marked (st : Attrs) (op : OpPtr) : bool :=
  hasStringAttr st op kXlaOutsideCompilationAttr.

(** The cluster allows soft placement. *)
Definition gated (st : Attrs) (cluster : OpPtr) : bool :=
  hasTrueBoolAttr st cluster kAllowSoftPlacementAttr.

(** The operations the two walks of the pass present to their callbacks:
    the bodies of the clusters that allow soft placement. *)
Definition gatedBodies (st : Attrs) (module : Operation) : list (OpPtr * Operation) :=
  flat_map (fun cluster =>
              if gated st cluster.1 then Block_walk (GetBody cluster) else [])
    (clustersOf module).



(** What the callback of the Walker decides for one operation: the marker
    is set when the operation is not supported, or when it is a conditional
    or loop region that captures a string value. *)
Definition mustMark (ctx : MLIRContext) (fallback : Operation → bool)
    (tf_dialect : option Dialect) (supported_ops : gset OperationName)
    (op : OpPtr * Operation) : bool :=
  negb (IsSupportedOp ctx fallback op.2 supported_ops tf_dialect)
  || ((isa TF.IfRegionOp op.2 || isa TF.WhileRegionOp op.2)
      && HasCapturedStringOperand op).

(** Some visit of the Walker sets the marker on [q]. *)
Definition markedByWalker (ctx : MLIRContext) (fallback : Operation → bool)
    (tf_dialect : option Dialect) (supported_ops : gset OperationName)
    (visit : list (OpPtr * Operation)) (q : OpPtr) : bool :=
  existsb (fun op => bool_decide (op.1 = q)
                     && mustMark ctx fallback tf_dialect supported_ops op) visit.

(** The attributes the Walker leaves behind, and those the Pruner leaves
    when it starts from [st1]; the clusters are those that allow soft
    placement in [st]. *)
Definition afterWalker (ctx : MLIRContext) (fallback : Operation → bool)
    (tf_dialect : option Dialect) (supported_ops : gset OperationName)
    (module : Operation) (st : Attrs) : Attrs :=
  walkVoid (markCallback ctx fallback tf_dialect supported_ops)
    (gatedBodies st module) st.

Definition afterPruner (module : Operation) (st st1 : Attrs) : Attrs :=
  walkVoid unmarkCallback (gatedBodies st module) st1.

(** The Walker sets the marker on [q]: [q] is an operation of the body of
    a cluster that allows soft placement that the callback decides to
    mark. *)
Definition walkerRejects (ctx : MLIRContext) (fallback : Operation → bool)
    (tf_dialect : option Dialect) (supported_ops : gset OperationName)
    (module : Operation) (st : Attrs) (q : OpPtr) : Prop :=
  ∃ o, (q, o) ∈ gatedBodies st module
       ∧ mustMark ctx fallback tf_dialect supported_ops (q, o) = true.

(** Every pattern of the catalog has a root kind. *)
Definition allRooted (patterns : list Pattern) : Prop :=
  Forall (fun pattern => is_Some (getRootKind pattern)) patterns.

(** ** Example modules *)

Definition noAttrs : Attrs := fun _ => ∅.

Definition tfContext : MLIRContext :=
  {| loadedDialects := {[ "builtin"; "std"; "tf"; "tf_device" ]} |}.

Definition noTfContext : MLIRContext :=
  {| loadedDialects := {[ "builtin"; "std"; "tf_device" ]} |}.

Definition noFallback : Operation → bool := fun _ => false.

(** The empty catalog of rewrite patterns. *)
Definition emptyCatalog : MLIRContext → list Pattern := fun _ => [].

(** A pattern that matches any operation, and one rooted at [kind]. *)
Definition anyOpPattern : Pattern := {| getRootKind := None |}.

Definition rootedPattern (kind : OperationName) : Pattern :=
  {| getRootKind := Some kind |}.

Definition tensor (elt : Type_) : Type_ := UnrankedTensorType elt.

(** A module with one function, whose body is [ops] and a return. *)
Definition moduleOf (ops : Block) : Operation :=
  mkOperation "builtin.module" [] []
    [[[mkOperation "builtin.func" [] []
         [[ops ++ [mkOperation "std.return" [] [] []]]]]]].

(** A cluster whose body is [ops] and its terminator. *)
Definition clusterOf (ops : Block) : Operation :=
  mkOperation tf_device.ClusterOp [] []
    [[ops ++ [mkOperation "tf_device.return" [] [] []]]].

(** The function of such a module and the first two operations of its
    body. *)
Definition mainFunc : OpPtr := [(0, 0, 0)].
Definition firstCluster : OpPtr := (0, 0, 0) :: mainFunc.
Definition secondCluster : OpPtr := (0, 0, 1) :: mainFunc.

(** The first operation of the function is a cluster that allows soft
    placement. *)
Definition softPlacementOnFirst : Attrs :=
  setAttr firstCluster kAllowSoftPlacementAttr (BoolAttr true) noAttrs.

(** A module whose function holds no cluster at all. *)
Definition plainModule : Operation := moduleOf [].

(** A target-dialect kind with no lowering and no string type. *)
Definition unsupportedOp (regions : list Region) : Operation :=
  mkOperation "tf.UnsupportedOp" [] [tensor (FloatType 32)] regions.

(** An unsupported operation that holds another one in a region, inside a
    cluster. *)
Definition innerUnsupported : Operation := unsupportedOp [].
Definition outerUnsupported : Operation := unsupportedOp [[[innerUnsupported]]].
Definition softCluster : Operation := clusterOf [outerUnsupported].

Definition nestedUnsupported : Operation := moduleOf [softCluster].

(** A cluster nested in a cluster, around an unsupported operation. *)
Definition nestedClusters : Operation :=
  moduleOf [clusterOf [clusterOf [innerUnsupported]]].

(** Two clusters side by side, each around an unsupported operation. *)
Definition twoClusters : Operation :=
  moduleOf [clusterOf [innerUnsupported]; clusterOf [innerUnsupported]].

(** A cluster with a string constant, a counter and a loop over the counter
    whose body takes the length of the string: the loop has no string
    operand or result, and its body uses a string value defined in the body
    of the cluster. *)
Definition stringConst : Operation :=
  mkOperation "tf.Const" [] [tensor StringType] [].

Definition counterConst : Operation :=
  mkOperation "tf.Const" [] [tensor (IntegerType 32)] [].

Definition stringValue : Value :=
  OpResult ((0, 0, 0) :: firstCluster) 0 (tensor StringType).

Definition counterValue : Value :=
  OpResult ((0, 0, 1) :: firstCluster) 0 (tensor (IntegerType 32)).

Definition loopPtr : OpPtr := (0, 0, 2) :: firstCluster.

Definition condRegion : Region :=
  [[mkOperation "tf.Const" [] [tensor (IntegerType 1)] [];
    mkOperation TF.YieldOp
      [OpResult ((0, 0, 0) :: loopPtr) 0 (tensor (IntegerType 1))] [] []]].

Definition condYield : Operation :=
  mkOperation TF.YieldOp
    [OpResult ((0, 0, 0) :: loopPtr) 0 (tensor (IntegerType 1))] [] [].

Definition lengthOp : Operation :=
  mkOperation "tf.StringLength" [stringValue] [tensor (IntegerType 32)] [].

Definition bodyRegion : Region :=
  [[lengthOp;
    mkOperation TF.YieldOp
      [OpResult ((1, 0, 0) :: loopPtr) 0 (tensor (IntegerType 32))] [] []]].

Definition capturingLoop : Operation :=
  mkOperation TF.WhileRegionOp [counterValue] [tensor (IntegerType 32)]
    [condRegion; bodyRegion].

Definition loopCluster : Operation :=
  clusterOf [stringConst; counterConst; capturingLoop].

Definition loopModule : Operation := moduleOf [loopCluster].

(** A foreign operation with a string result. *)
Definition foreignStringOp : Operation :=
  mkOperation "foreign.make_string" [] [tensor StringType] [].

Definition foreignCluster : Operation := clusterOf [foreignStringOp].

Definition foreignModule : Operation := moduleOf [foreignCluster].

(** The first cluster carries the marker itself, and so does the first
    operation of its body. *)
Definition markedCluster : Attrs :=
  setAttr firstCluster kXlaOutsideCompilationAttr (StringAttr "auto")
    (setAttr ((0, 0, 0) :: firstCluster) kXlaOutsideCompilationAttr
       (StringAttr "auto") softPlacementOnFirst).

(** ** Attribute dictionaries *)

Lemma getAttr_setAttr st p k v q k' :
  getAttr (setAttr p k v st) q k'
  = if bool_decide (q = p) && bool_decide (k' = k) then Some v
    else getAttr st q k'.
Proof.
  unfold getAttr, setAttr.
  destruct (decide (q = p)) as [->|Hne].
  - rewrite bool_decide_eq_true_2 by done. simpl.
    rewrite lookup_insert. repeat case_decide; case_bool_decide; congruence.
  - by rewrite (bool_decide_eq_false_2 _ Hne).
Qed.

Lemma getAttr_removeAttr st p k q k' :
  getAttr (removeAttr p k st) q k'
  = if bool_decide (q = p) && bool_decide (k' = k) then None
    else getAttr st q k'.
Proof.
  unfold getAttr, removeAttr.
  destruct (decide (q = p)) as [->|Hne].
  - rewrite bool_decide_eq_true_2 by done. simpl.
    rewrite lookup_delete. repeat case_decide; case_bool_decide; congruence.
  - by rewrite (bool_decide_eq_false_2 _ Hne).
Qed.

Lemma marked_ext st st' q :
  getAttr st' q kXlaOutsideCompilationAttr = getAttr st q kXlaOutsideCompilationAttr →
  marked st' q = marked st q.
Proof. unfold marked, hasStringAttr. by intros ->. Qed.

Lemma gated_ext st st' c :
  getAttr st' c kAllowSoftPlacementAttr = getAttr st c kAllowSoftPlacementAttr →
  gated st' c = gated st c.
Proof. unfold gated, hasTrueBoolAttr. by intros ->. Qed.

Lemma gatedBodies_ext st st' module :
  (∀ c, getAttr st' c kAllowSoftPlacementAttr = getAttr st c kAllowSoftPlacementAttr) →
  gatedBodies st' module = gatedBodies st module.
Proof.
  intros Heq. unfold gatedBodies.
  induction (clustersOf module) as [|c l IH]; [done|].
  simpl. by rewrite IH, (gated_ext st st' c.1).
Qed.

(** ** The two callbacks, attribute by attribute *)

Lemma walkVoid_cons {A} (f : A → Attrs → Attrs) x l st :
  walkVoid f (x :: l) st = walkVoid f l (f x st).
Proof. done. Qed.

Lemma walkVoid_app {A} (f : A → Attrs → Attrs) l1 l2 st :
  walkVoid f (l1 ++ l2) st = walkVoid f l2 (walkVoid f l1 st).
Proof. unfold walkVoid. apply fold_left_app. Qed.

(** The loop over the parents, one [getParentOp] at a time. *)
Lemma hasMarkedParent_getParentOp st iter_op :
  hasMarkedParent st iter_op
  = match getParentOp iter_op with
    | Some parent_op =>
        if hasStringAttr st parent_op kXlaOutsideCompilationAttr then true
        else hasMarkedParent st parent_op
    | None => false
    end.
Proof. by destruct iter_op. Qed.


Lemma hasMarkedParent_cons st pos parent_op :
  hasMarkedParent st (pos :: parent_op)
  = marked st parent_op || hasMarkedParent st parent_op.
Proof. simpl. unfold marked. by destruct (hasStringAttr _ _ _). Qed.

Lemma properAncestor_cons a pos p :
  properAncestor a (pos :: p) ↔ ancestorOrSelf a p.
Proof.
  split.
  - inversion 1 as [q Hq|q parent_op Hq Hanc]; simpl in Hq; simplify_eq.
    + by left.
    + by right.
  - intros [->|Hanc].
    + by apply properAncestor_parent.
    + by apply properAncestor_step with p.
Qed.

Lemma properAncestor_nil a : ¬ properAncestor a [].
Proof. by inversion 1. Qed.

(** The loop over the parents finds a marker exactly when a strict ancestor
    carries one. *)
Lemma hasMarkedParent_spec st q :
  hasMarkedParent st q = true ↔ ∃ a, properAncestor a q ∧ marked st a = true.
Proof.
  induction q as [|pos p IH].
  - split; [done|]. intros (a & Ha & _). by apply properAncestor_nil in Ha.
  - rewrite hasMarkedParent_cons, orb_true_iff, IH. split.
    + intros [Hm|(a & Ha & Hm)].
      * exists p. split; [|done]. apply properAncestor_cons. by left.
      * exists a. split; [|done]. apply properAncestor_cons. by right.
    + intros (a & Ha & Hm). apply properAncestor_cons in Ha as [->|Ha].
      * by left.
      * right. by exists a.
Qed.

(** Removing markers only from operations that have a marked strict ancestor
    does not change the answer of the loop over the parents: the outermost
    marked ancestor is never one of them. *)
Lemma hasMarkedParent_stable st st' :
  (∀ p, marked st' p = marked st p
        ∨ (marked st' p = false ∧ hasMarkedParent st p = true)) →
  ∀ q, hasMarkedParent st' q = hasMarkedParent st q.
Proof.
  intros Hrel q. induction q as [|pos p IH]; [done|].
  rewrite !hasMarkedParent_cons, IH.
  destruct (Hrel p) as [->|[-> ->]]; [done|].
  by rewrite !orb_true_r.
Qed.

Lemma getAttr_unmarkCallback op st q k :
  getAttr (unmarkCallback op st) q k
  = if bool_decide (q = op.1) && bool_decide (k = kXlaOutsideCompilationAttr)
       && marked st q && hasMarkedParent st q
    then None else getAttr st q k.
Proof.
  unfold unmarkCallback. fold (marked st op.1).
  destruct (decide (q = op.1)) as [->|Hne].
  - rewrite bool_decide_eq_true_2 by done.
    destruct (marked st op.1), (hasMarkedParent st op.1); simpl;
      rewrite ?andb_false_r, ?andb_true_r; try done.
    by rewrite getAttr_removeAttr, bool_decide_eq_true_2.
  - rewrite (bool_decide_eq_false_2 _ Hne). simpl.
    destruct (marked st op.1), (hasMarkedParent st op.1); simpl; try done.
    by rewrite getAttr_removeAttr, (bool_decide_eq_false_2 _ Hne).
Qed.

Lemma marked_unmarkCallback op st q :
  marked (unmarkCallback op st) q
  = marked st q && negb (bool_decide (q = op.1) && hasMarkedParent st q).
Proof.
  unfold marked, hasStringAttr. rewrite getAttr_unmarkCallback.
  unfold marked, hasStringAttr.
  rewrite (bool_decide_eq_true_2
             (kXlaOutsideCompilationAttr = kXlaOutsideCompilationAttr)) by done.
  destruct (bool_decide (q = op.1)), (hasMarkedParent st q),
    (getAttr st q kXlaOutsideCompilationAttr) as [[]|]; done.
Qed.

Lemma hasMarkedParent_unmarkCallback op st q :
  hasMarkedParent (unmarkCallback op st) q = hasMarkedParent st q.
Proof.
  apply hasMarkedParent_stable. intros p. rewrite marked_unmarkCallback.
  destruct (bool_decide (p = op.1)), (marked st p),
    (hasMarkedParent st p); simpl; auto.
Qed.

(** The Pruner over any list of visits, attribute by attribute: the order
    of the visits does not enter the result. *)
Lemma getAttr_unmark_walk visit st q k :
  getAttr (walkVoid unmarkCallback visit st) q k
  = if bool_decide (k = kXlaOutsideCompilationAttr) && bool_decide (q ∈ visit.*1)
       && marked st q && hasMarkedParent st q
    then None else getAttr st q k.
Proof.
  revert st. induction visit as [|op visit IH]; intros st.
  - rewrite fmap_nil, (bool_decide_eq_false_2 (q ∈ [])) by apply not_elem_of_nil.
    by rewrite andb_false_r.
  - rewrite walkVoid_cons, IH, marked_unmarkCallback,
      hasMarkedParent_unmarkCallback, getAttr_unmarkCallback.
    rewrite fmap_cons.
    destruct (decide (q = op.1)) as [->|Hne].
    + rewrite (bool_decide_eq_true_2 (op.1 = op.1)) by done.
      rewrite (bool_decide_eq_true_2 (op.1 ∈ op.1 :: _)) by (apply elem_of_cons; by left).
      destruct (bool_decide (k = kXlaOutsideCompilationAttr)),
        (bool_decide (op.1 ∈ visit.*1)),
        (marked st op.1), (hasMarkedParent st op.1); done.
    + rewrite (bool_decide_eq_false_2 _ Hne). simpl.
      rewrite andb_true_r.
      rewrite (bool_decide_ext (q ∈ op.1 :: visit.*1) (q ∈ visit.*1)); [done|].
      rewrite elem_of_cons. tauto.
Qed.

Lemma marked_unmark_walk visit st q :
  marked (walkVoid unmarkCallback visit st) q
  = marked st q && negb (bool_decide (q ∈ visit.*1) && hasMarkedParent st q).
Proof.
  unfold marked at 1, hasStringAttr. rewrite getAttr_unmark_walk.
  rewrite (bool_decide_eq_true_2
             (kXlaOutsideCompilationAttr = kXlaOutsideCompilationAttr)) by done.
  unfold marked, hasStringAttr.
  destruct (bool_decide (q ∈ _)), (hasMarkedParent st q),
    (getAttr st q kXlaOutsideCompilationAttr) as [[]|]; done.
Qed.


Lemma attr_names_differ : kAllowSoftPlacementAttr ≠ kXlaOutsideCompilationAttr.
Proof. discriminate. Qed.

(** ** The Walker, attribute by attribute *)

Section WalkerFacts.
Variable ctx : MLIRContext.
Variable fallback : Operation → bool.
Variable tf_dialect : option Dialect.
Variable supported_ops : gset OperationName.

Local Abbreviation markCallback' := (markCallback ctx fallback tf_dialect supported_ops).
Local Abbreviation mustMark' := (mustMark ctx fallback tf_dialect supported_ops).
Local Abbreviation markedByWalker' :=
  (markedByWalker ctx fallback tf_dialect supported_ops).

Lemma getAttr_markCallback op st q k :
  getAttr (markCallback' op st) q k
  = if bool_decide (q = op.1) && bool_decide (k = kXlaOutsideCompilationAttr)
       && mustMark' op
    then Some (StringAttr "auto") else getAttr st q k.
Proof.
  unfold markCallback, mustMark.
  destruct (IsSupportedOp ctx fallback op.2 supported_ops tf_dialect),
    (isa TF.IfRegionOp op.2 || isa TF.WhileRegionOp op.2),
    (HasCapturedStringOperand op); simpl;
    rewrite ?getAttr_setAttr, ?andb_true_r, ?andb_false_r; try done.
  by destruct (bool_decide (q = op.1) && bool_decide (k = _)).
Qed.

Lemma getAttr_mark_walk visit st q k :
  getAttr (walkVoid markCallback' visit st) q k
  = if bool_decide (k = kXlaOutsideCompilationAttr) && markedByWalker' visit q
    then Some (StringAttr "auto") else getAttr st q k.
Proof.
  revert st. induction visit as [|op visit IH]; intros st.
  - simpl. by rewrite andb_false_r.
  - rewrite walkVoid_cons, IH, getAttr_markCallback. simpl.
    rewrite (bool_decide_ext (q = op.1) (op.1 = q)) by done.
    destruct (bool_decide (k = kXlaOutsideCompilationAttr)),
      (bool_decide (op.1 = q)), (mustMark' op), (markedByWalker' visit q); done.
Qed.

Lemma markedByWalker_spec visit q :
  markedByWalker' visit q = true
  ↔ ∃ o, (q, o) ∈ visit ∧ mustMark' (q, o) = true.
Proof.
  unfold markedByWalker. rewrite existsb_exists. split.
  - intros ([q' o] & Hin & Hb). apply andb_true_iff in Hb as [Hq Hm].
    apply bool_decide_eq_true in Hq. simpl in Hq. subst q'.
    exists o. split; [by apply list_elem_of_In|done].
  - intros (o & Hin & Hm). exists (q, o). split; [by apply list_elem_of_In|].
    simpl. by rewrite bool_decide_eq_true_2, Hm.
Qed.

Lemma markClusters_from clusters st cur :
  (∀ c, getAttr cur c kAllowSoftPlacementAttr
        = getAttr st c kAllowSoftPlacementAttr) →
  walkInterruptible
    (fun cluster st =>
       if negb (hasTrueBoolAttr st cluster.1 kAllowSoftPlacementAttr)
       then (advance, st)
       else
         let '(r, st') :=
           MarkUncompilableOps ctx fallback tf_dialect (GetBody cluster)
             supported_ops st in
         if failed r then (interrupt, st') else (advance, st'))
    clusters cur
  = (advance,
     walkVoid markCallback'
       (flat_map (fun cluster =>
                    if gated st cluster.1 then Block_walk (GetBody cluster)
                    else []) clusters) cur).
Proof.
  revert cur. induction clusters as [|cluster l IH]; intros cur Hsame; [done|].
  simpl. fold (gated cur cluster.1).
  rewrite (gated_ext st cur) by done.
  destruct (gated st cluster.1); simpl.
  - rewrite walkVoid_app. apply IH. intros c.
    rewrite getAttr_mark_walk.
    rewrite (bool_decide_eq_false_2 _ attr_names_differ). apply Hsame.
  - by apply IH.
Qed.

(** The first walk over the clusters never interrupts, and is the
    callback of the Walker over the bodies of the gated clusters. *)
Lemma markClusters_eq module st :
  markClusters ctx fallback tf_dialect supported_ops module st
  = (advance, walkVoid markCallback' (gatedBodies st module) st).
Proof. by apply markClusters_from. Qed.
End WalkerFacts.

Lemma unmarkClusters_from clusters st cur :
  (∀ c, getAttr cur c kAllowSoftPlacementAttr
        = getAttr st c kAllowSoftPlacementAttr) →
  walkVoid
    (fun cluster st =>
       if negb (hasTrueBoolAttr st cluster.1 kAllowSoftPlacementAttr) then st
       else UnmarkChildren (GetBody cluster) st)
    clusters cur
  = walkVoid unmarkCallback
      (flat_map (fun cluster =>
                   if gated st cluster.1 then Block_walk (GetBody cluster)
                   else []) clusters) cur.
Proof.
  revert cur. induction clusters as [|cluster l IH]; intros cur Hsame; [done|].
  rewrite walkVoid_cons. simpl. fold (gated cur cluster.1).
  rewrite (gated_ext st cur) by done.
  destruct (gated st cluster.1); simpl.
  - rewrite walkVoid_app. apply IH. intros c.
    unfold UnmarkChildren, UnmarkChildren_in.
    rewrite getAttr_unmark_walk.
    rewrite (bool_decide_eq_false_2 _ attr_names_differ). apply Hsame.
  - by apply IH.
Qed.

(** The second walk over the clusters is the callback of the Pruner over
    the bodies of the gated clusters. *)
Lemma unmarkClusters_eq module st :
  unmarkClusters module st = walkVoid unmarkCallback (gatedBodies st module) st.
Proof. by apply unmarkClusters_from. Qed.

(** ** The operations a walk visits *)

Section OperationInduction.
Variable P : Operation → Prop.
Hypothesis step : ∀ name operands results regions,
  Forall (Forall (Forall P)) regions →
  P (mkOperation name operands results regions).

(** Induction on an operation with the hypothesis for every operation of
    every block of every region. *)
Fixpoint Operation_nested_ind (op : Operation) : P op :=
  match op with
  | mkOperation name operands results regions =>
      step name operands results regions
        ((fix regions_ok (l : list Region) : Forall (Forall (Forall P)) l :=
            match l with
            | [] => @List.Forall_nil _ _
            | region :: l' =>
                @List.Forall_cons _ _ region l'
                  ((fix blocks_ok (bl : list Block) : Forall (Forall P) bl :=
                      match bl with
                      | [] => @List.Forall_nil _ _
                      | block :: bl' =>
                          @List.Forall_cons _ _ block bl'
                            ((fix ops_ok (ol : list Operation) : Forall P ol :=
                                match ol with
                                | [] => @List.Forall_nil _ _
                                | o :: ol' =>
                                    @List.Forall_cons _ _ o ol'
                                      (Operation_nested_ind o) (ops_ok ol')
                                end) block)
                            (blocks_ok bl')
                      end) region)
                  (regions_ok l')
            end) regions)
  end.
End OperationInduction.

Lemma elem_of_walkIndexed {A B} (f : nat → A → list B) k (l : list A) y :
  y ∈ walkIndexed f k l ↔ ∃ i x, l !! i = Some x ∧ y ∈ f (k + i) x.
Proof.
  revert k. induction l as [|x l IH]; intros k; simpl.
  - rewrite elem_of_nil. split; [done|]. by intros (i & x & ? & _).
  - rewrite elem_of_app, IH. split.
    + intros [Hy|(i & x' & Hl & Hy)].
      * exists 0, x. by rewrite Nat.add_0_r.
      * exists (S i), x'. by rewrite Nat.add_succ_r.
    + intros ([|i] & x' & Hl & Hy); simpl in Hl.
      * left. simplify_eq. by rewrite Nat.add_0_r in Hy.
      * right. exists i, x'. by rewrite Nat.add_succ_r in Hy.
Qed.

Lemma elem_of_walkOperation_nested op p q o :
  (q, o) ∈ walkOperation p op ↔
  (q, o) = (p, op)
  ∨ ∃ r region b block i nested,
      getRegions op !! r = Some region ∧ region !! b = Some block
      ∧ block !! i = Some nested
      ∧ (q, o) ∈ walkOperation ((r, b, i) :: p) nested.
Proof.
  destruct op as [name operands results regions]. simpl.
  rewrite elem_of_app, list_elem_of_singleton, elem_of_walkIndexed.
  split.
  - intros [(r & region & Hr & Hin)|Heq]; [|by left]. right.
    apply elem_of_walkIndexed in Hin as (b & block & Hb & Hin).
    apply elem_of_walkIndexed in Hin as (i & nested & Hi & Hin).
    by exists r, region, b, block, i, nested.
  - intros [Heq|(r & region & b & block & i & nested & Hr & Hb & Hi & Hin)];
      [by right|]. left.
    exists r, region. split; [done|].
    apply elem_of_walkIndexed. exists b, block. split; [done|].
    apply elem_of_walkIndexed. by exists i, nested.
Qed.

(** A walk visits exactly the operations nested in its root, each under
    the pointer its position gives it. *)
Lemma elem_of_walkOperation op p q o :
  (q, o) ∈ walkOperation p op ↔
  ∃ path, q = rev path ++ p ∧ getNested op path = Some o.
Proof.
  split.
  - revert p. induction op as [name operands results regions IH]
      using Operation_nested_ind. intros p Hin.
    apply elem_of_walkOperation_nested in Hin
      as [Heq|(r & region & b & block & i & nested & Hr & Hb & Hi & Hin)].
    + simplify_eq. by exists [].
    + simpl in Hr.
      pose proof (proj1 (Forall_lookup _ _) IH _ _ Hr) as IHregion.
      pose proof (proj1 (Forall_lookup _ _) IHregion _ _ Hb) as IHblock.
      pose proof (proj1 (Forall_lookup _ _) IHblock _ _ Hi) as IHnested.
      destruct (IHnested _ Hin) as (path & -> & Hpath).
      exists ((r, b, i) :: path). split.
      * simpl. by rewrite <- app_assoc.
      * simpl. by rewrite Hr, Hb, Hi.
  - intros (path & -> & Hpath). revert op p Hpath.
    induction path as [|[[r b] i] path IH]; intros op p Hpath.
    + simpl in Hpath. simplify_eq. apply elem_of_walkOperation_nested. by left.
    + simpl in Hpath.
      destruct (getRegions op !! r) as [region|] eqn:Hr; [|done].
      destruct (region !! b) as [block|] eqn:Hb; [|done].
      destruct (block !! i) as [nested|] eqn:Hi; [|done].
      apply elem_of_walkOperation_nested. right.
      exists r, region, b, block, i, nested. repeat split; try done.
      simpl. rewrite <- app_assoc. by apply IH.
Qed.

Lemma getNested_app op path1 path2 :
  getNested op (path1 ++ path2)
  = match getNested op path1 with
    | Some nested => getNested nested path2
    | None => None
    end.
Proof.
  revert op. induction path1 as [|[[r b] i] path1 IH]; intros op; [done|].
  simpl. destruct (getRegions op !! r) as [region|]; [|done].
  destruct (region !! b) as [block|]; [|done].
  destruct (block !! i) as [nested|]; [|done]. apply IH.
Qed.

(** A pointer names one operation of the module. *)
Lemma walkOperation_functional module q o1 o2 :
  (q, o1) ∈ walkOperation [] module → (q, o2) ∈ walkOperation [] module →
  o1 = o2.
Proof.
  rewrite !elem_of_walkOperation.
  intros (path1 & Hq1 & Hp1) (path2 & Hq2 & Hp2).
  rewrite app_nil_r in Hq1, Hq2. subst q.
  apply (f_equal (@rev _)) in Hq2. rewrite !rev_involutive in Hq2. congruence.
Qed.

Lemma elem_of_walkBlock owner r b block q o :
  (q, o) ∈ walkBlock owner r b block ↔
  ∃ i nested path, block !! i = Some nested
    ∧ q = rev path ++ (r, b, i) :: owner ∧ getNested nested path = Some o.
Proof.
  unfold walkBlock. rewrite elem_of_walkIndexed. split.
  - intros (i & nested & Hi & Hin).
    apply elem_of_walkOperation in Hin as (path & -> & Hpath).
    by exists i, nested, path.
  - intros (i & nested & path & Hi & -> & Hpath).
    exists i, nested. split; [done|].
    apply elem_of_walkOperation. by exists path.
Qed.

Lemma properAncestor_app a pos l : properAncestor a (l ++ pos :: a).
Proof.
  induction l as [|pos' l IH]; simpl.
  - by apply properAncestor_parent.
  - apply properAncestor_cons. by right.
Qed.

(** The operations of the body of a cluster lie strictly below it. *)
Lemma body_properAncestor cluster q o :
  (q, o) ∈ Block_walk (GetBody cluster) → properAncestor cluster.1 q.
Proof.
  unfold Block_walk. intros Hin.
  apply elem_of_walkBlock in Hin as (i & nested & path & _ & -> & _).
  apply properAncestor_app.
Qed.

(** The operations of the body of a cluster of the module are operations
    of the module. *)
Lemma body_in_module module cluster q o :
  cluster ∈ walkOperation [] module →
  (q, o) ∈ Block_walk (GetBody cluster) →
  (q, o) ∈ walkOperation [] module.
Proof.
  destruct cluster as [c cop]. unfold Block_walk, GetBody. simpl.
  rewrite !elem_of_walkOperation.
  intros (pathc & -> & Hc) Hin.
  apply elem_of_walkBlock in Hin as (i & nested & path & Hi & -> & Hpath).
  destruct (getRegions cop) as [|[|front region] regions] eqn:Hregions;
    try by destruct i.
  exists (pathc ++ (0, 0, i) :: path). split.
  - rewrite rev_app_distr. simpl. by rewrite <- !app_assoc.
  - rewrite getNested_app, Hc. simpl. rewrite Hregions. simpl. by rewrite Hi.
Qed.

Lemma elem_of_clustersOf module cluster :
  cluster ∈ clustersOf module ↔
  cluster ∈ walkOperation [] module ∧ getName cluster.2 = tf_device.ClusterOp.
Proof.
  unfold clustersOf. rewrite list_elem_of_filter.
  unfold isa. rewrite bool_decide_eq_true. tauto.
Qed.

(** The operations the two walks of the pass visit: those of the bodies of
    the clusters that allow soft placement. *)
Lemma elem_of_gatedBodies st module x :
  x ∈ gatedBodies st module ↔
  ∃ cluster, cluster ∈ clustersOf module ∧ gated st cluster.1 = true
             ∧ x ∈ Block_walk (GetBody cluster).
Proof.
  unfold gatedBodies. rewrite list_elem_of_In, in_flat_map. split.
  - intros (cluster & Hc & Hx). exists cluster.
    apply list_elem_of_In in Hc. destruct (gated st cluster.1); [|done].
    by apply list_elem_of_In in Hx.
  - intros (cluster & Hc & Hg & Hx). exists cluster.
    rewrite Hg. by rewrite <- !list_elem_of_In.
Qed.

Lemma gatedBodies_in_module st module x :
  x ∈ gatedBodies st module → x ∈ walkOperation [] module.
Proof.
  intros (cluster & Hc & _ & Hx)%elem_of_gatedBodies. destruct x as [q o].
  apply elem_of_clustersOf in Hc as [Hc _]. by eapply body_in_module.
Qed.

(** The ancestors of an operation form a chain. *)
Lemma ancestors_comparable a b q :
  ancestorOrSelf a q → ancestorOrSelf b q →
  ancestorOrSelf a b ∨ ancestorOrSelf b a.
Proof.
  induction q as [|pos p IH]; intros Ha Hb.
  - destruct Ha as [->|Ha]; [|by apply properAncestor_nil in Ha].
    destruct Hb as [->|Hb]; [|by apply properAncestor_nil in Hb].
    left. by left.
  - destruct Ha as [->|Ha]; [by right|].
    destruct Hb as [->|Hb]; [left; by right|].
    apply properAncestor_cons in Ha, Hb. by apply IH.
Qed.

(** ** The supported set *)

Lemma insertRootKinds_rooted patterns supported_ops :
  allRooted patterns →
  ∃ result, insertRootKinds patterns supported_ops = Some result
    ∧ ∀ kind, kind ∈ result ↔
        kind ∈ supported_ops
        ∨ ∃ pattern, pattern ∈ patterns ∧ getRootKind pattern = Some kind.
Proof.
  intros Hall. revert supported_ops.
  induction Hall as [|pattern patterns [root Hroot] _ IH]; intros supported_ops.
  - exists supported_ops. split; [done|]. intros kind. split; [by left|].
    intros [?|(pattern & Hin & _)]; [done|]. by apply elem_of_nil in Hin.
  - simpl. rewrite Hroot.
    destruct (IH ({[ root ]} ∪ supported_ops)) as (result & -> & Hres).
    exists result. split; [done|]. intros kind. rewrite Hres. split.
    + intros [Hin|(p & Hin & Hp)].
      * apply elem_of_union in Hin as [->%elem_of_singleton|Hin]; [|by left].
        right. exists pattern. split; [by left|done].
      * right. exists p. split; [by right|done].
    + intros [Hin|(p & Hin & Hp)].
      * left. apply elem_of_union. by right.
      * apply elem_of_cons in Hin as [->|Hin].
        -- left. rewrite Hroot in Hp. simplify_eq.
           apply elem_of_union. left. by apply elem_of_singleton.
        -- right. by exists p.
Qed.

Lemma insertRootKinds_rootless patterns supported_ops :
  ¬ allRooted patterns → insertRootKinds patterns supported_ops = None.
Proof.
  revert supported_ops. induction patterns as [|pattern patterns IH];
    intros supported_ops Hnot.
  - destruct Hnot. constructor.
  - simpl. destruct (getRootKind pattern) as [root|] eqn:Hroot; [|done].
    apply IH. intros Hall. apply Hnot. constructor; [by rewrite Hroot|done].
Qed.

Lemma buildSupportedOps_rooted patterns :
  allRooted patterns → is_Some (buildSupportedOps patterns).
Proof.
  intros Hall. unfold buildSupportedOps.
  by destruct (insertRootKinds_rooted patterns ∅ Hall) as (result & -> & _).
Qed.

Lemma getLoadedDialect_Some ctx name d :
  getLoadedDialect ctx name = Some d → d = name.
Proof. unfold getLoadedDialect. case_decide; congruence. Qed.

(** ** A run of the pass, attribute by attribute *)

Section RunFacts.
Variable ctx : MLIRContext.
Variable fallback : Operation → bool.
Variable populate : MLIRContext → list Pattern.

Local Abbreviation run := (runOnOperation ctx fallback populate).

Lemma runOnOperation_unregistered module st :
  getLoadedDialect ctx "tf" = None →
  run module st
  = Some {| resultAttrs := st;
            diagnostics := ["'tf' dialect is not registered"];
            passFailed := true |}.
Proof. unfold runOnOperation. by intros ->. Qed.

Lemma getAttr_afterWalker tf_dialect supported_ops module st q k :
  getAttr (afterWalker ctx fallback tf_dialect supported_ops module st) q k
  = if bool_decide (k = kXlaOutsideCompilationAttr)
       && markedByWalker ctx fallback tf_dialect supported_ops
            (gatedBodies st module) q
    then Some (StringAttr "auto") else getAttr st q k.
Proof. apply getAttr_mark_walk. Qed.

Lemma gatedBodies_afterWalker tf_dialect supported_ops module st :
  gatedBodies (afterWalker ctx fallback tf_dialect supported_ops module st) module
  = gatedBodies st module.
Proof.
  apply gatedBodies_ext. intros c. rewrite getAttr_afterWalker.
  by rewrite (bool_decide_eq_false_2 _ attr_names_differ).
Qed.

Lemma runOnOperation_registered module st d supported_ops :
  getLoadedDialect ctx "tf" = Some d →
  buildSupportedOps (populate ctx) = Some supported_ops →
  run module st
  = Some {| resultAttrs :=
              afterPruner module st
                (afterWalker ctx fallback (Some d) supported_ops module st);
            diagnostics := []; passFailed := false |}.
Proof.
  intros Hd Hsup. unfold runOnOperation. rewrite Hd, Hsup.
  rewrite markClusters_eq. simpl.
  rewrite unmarkClusters_eq. unfold afterPruner.
  pose proof (gatedBodies_afterWalker (Some d) supported_ops module st) as Hg.
  unfold afterWalker in *. by rewrite Hg.
Qed.

Lemma getAttr_afterPruner module st st1 q k :
  getAttr (afterPruner module st st1) q k
  = if bool_decide (k = kXlaOutsideCompilationAttr)
       && bool_decide (q ∈ (gatedBodies st module).*1)
       && marked st1 q && hasMarkedParent st1 q
    then None else getAttr st1 q k.
Proof. apply getAttr_unmark_walk. Qed.

Lemma marked_afterPruner module st st1 q :
  marked (afterPruner module st st1) q
  = marked st1 q
    && negb (bool_decide (q ∈ (gatedBodies st module).*1)
             && hasMarkedParent st1 q).
Proof. apply marked_unmark_walk. Qed.

Lemma marked_afterWalker tf_dialect supported_ops module st q :
  marked (afterWalker ctx fallback tf_dialect supported_ops module st) q
  = markedByWalker ctx fallback tf_dialect supported_ops (gatedBodies st module) q
    || marked st q.
Proof.
  unfold marked at 1, hasStringAttr. rewrite getAttr_afterWalker.
  rewrite (bool_decide_eq_true_2
             (kXlaOutsideCompilationAttr = kXlaOutsideCompilationAttr)) by done.
  by destruct (markedByWalker _ _ _ _ _ _).
Qed.

(** With every pattern rooted the run completes: it fails on a missing
    dialect and succeeds otherwise. *)
Lemma runOnOperation_rooted module st :
  allRooted (populate ctx) →
  (getLoadedDialect ctx "tf" = None
   ∧ run module st
     = Some {| resultAttrs := st;
               diagnostics := ["'tf' dialect is not registered"];
               passFailed := true |})
  ∨ ∃ d supported_ops,
      getLoadedDialect ctx "tf" = Some d
      ∧ run module st
        = Some {| resultAttrs :=
                    afterPruner module st
                      (afterWalker ctx fallback (Some d) supported_ops module st);
                  diagnostics := []; passFailed := false |}.
Proof.
  intros Hall. destruct (getLoadedDialect ctx "tf") as [d|] eqn:Hd.
  - right. destruct (buildSupportedOps_rooted _ Hall) as [supported_ops Hsup].
    exists d, supported_ops. split; [done|].
    by apply runOnOperation_registered.
  - left. split; [done|]. by apply runOnOperation_unregistered.
Qed.
End RunFacts.

(** ** Properties of the pass *)

Section Claims.
Variable ctx : MLIRContext.
Variable fallback : Operation → bool.
Variable populate : MLIRContext → list Pattern.

Local Abbreviation run := (runOnOperation ctx fallback populate).

Lemma gatedBodies_covers st module cluster q o :
  cluster ∈ clustersOf module → gated st cluster.1 = true →
  (q, o) ∈ Block_walk (GetBody cluster) →
  q ∈ (gatedBodies st module).*1.
Proof.
  intros Hc Hg Hq. apply list_elem_of_fmap. exists (q, o). split; [done|].
  apply elem_of_gatedBodies. by exists cluster.
Qed.

Lemma gatedBodies_afterPruner tf_dialect supported_ops module st :
  gatedBodies
    (afterPruner module st (afterWalker ctx fallback tf_dialect supported_ops module st))
    module
  = gatedBodies st module.
Proof.
  apply gatedBodies_ext. intros c.
  rewrite getAttr_afterPruner, getAttr_afterWalker.
  by rewrite (bool_decide_eq_false_2 _ attr_names_differ).
Qed.

(** C1. After a complete run, an operation of the body of a cluster that
    allows soft placement and that carries the marker has no strict
    ancestor that carries it: none inside the same cluster body, and none
    above it either. *)
Theorem ancestor_subsumption module st :
  getLoadedDialect ctx "tf" ≠ None → allRooted (populate ctx) →
  ∃ res, run module st = Some res ∧ passFailed res = false
    ∧ ∀ cluster q o a,
        cluster ∈ clustersOf module → gated st cluster.1 = true →
        (q, o) ∈ Block_walk (GetBody cluster) →
        marked (resultAttrs res) q = true →
        properAncestor a q →
        marked (resultAttrs res) a = false.
Proof.
  intros Hloaded Hall.
  destruct (runOnOperation_rooted ctx fallback populate module st Hall)
    as [[Hnone _]|(d & supported_ops & Hd & Hrun)]; [done|].
  eexists. split; [exact Hrun|]. split; [done|]. simpl.
  intros cluster q o a Hc Hg Hq Hm Ha.
  rewrite marked_afterPruner in *.
  apply andb_true_iff in Hm as [Hm Hkeep].
  rewrite (bool_decide_eq_true_2 _ (gatedBodies_covers _ _ _ _ _ Hc Hg Hq)) in Hkeep.
  simpl in Hkeep. apply negb_true_iff in Hkeep.
  destruct (marked (afterWalker _ _ _ _ _ _) a) eqn:Hma; [|done].
  assert (hasMarkedParent (afterWalker ctx fallback (Some d) supported_ops module st) q
          = true) as Hq'; [|congruence].
  apply hasMarkedParent_spec. by exists a.
Qed.

(** The Walker of a second run restores markers only below a marked
    ancestor, so the Pruner of the second run asks the same question. *)
Lemma hasMarkedParent_second_run tf_dialect supported_ops module st q :
  hasMarkedParent
    (afterWalker ctx fallback tf_dialect supported_ops module
       (afterPruner module st
          (afterWalker ctx fallback tf_dialect supported_ops module st))) q
  = hasMarkedParent (afterWalker ctx fallback tf_dialect supported_ops module st) q.
Proof.
  apply hasMarkedParent_stable. intros p.
  rewrite marked_afterWalker, gatedBodies_afterPruner, marked_afterPruner,
    marked_afterWalker.
  destruct (markedByWalker _ _ _ _ _ p), (marked st p),
    (bool_decide (p ∈ _)),
    (hasMarkedParent (afterWalker _ _ _ _ _ _) p); simpl; auto.
Qed.

Lemma second_run_attrs tf_dialect supported_ops module st q k :
  getAttr
    (afterPruner module
       (afterPruner module st
          (afterWalker ctx fallback tf_dialect supported_ops module st))
       (afterWalker ctx fallback tf_dialect supported_ops module
          (afterPruner module st
             (afterWalker ctx fallback tf_dialect supported_ops module st))))
    q k
  = getAttr
      (afterPruner module st
         (afterWalker ctx fallback tf_dialect supported_ops module st)) q k.
Proof.
  rewrite (getAttr_afterPruner module (afterPruner _ _ _)).
  rewrite hasMarkedParent_second_run.
  rewrite marked_afterWalker, getAttr_afterWalker.
  rewrite !gatedBodies_afterPruner.
  rewrite marked_afterPruner, getAttr_afterPruner.
  rewrite marked_afterWalker, getAttr_afterWalker.
  destruct (bool_decide (k = kXlaOutsideCompilationAttr)),
    (markedByWalker _ _ _ _ _ q), (marked st q),
    (bool_decide (q ∈ _)),
    (hasMarkedParent (afterWalker _ _ _ _ _ _) q); done.
Qed.

(** C2. A second run of the pass on the attributes the first run left
    changes no attribute of any operation: the operations that carry the
    marker after two runs are those that carry it after one. *)
Theorem pass_idempotent module st :
  allRooted (populate ctx) →
  ∃ res1 res2,
    run module st = Some res1
    ∧ run module (resultAttrs res1) = Some res2
    ∧ passFailed res2 = passFailed res1
    ∧ (∀ q k, getAttr (resultAttrs res2) q k = getAttr (resultAttrs res1) q k)
    ∧ ∀ q, marked (resultAttrs res2) q = marked (resultAttrs res1) q.
Proof.
  intros Hall.
  destruct (getLoadedDialect ctx "tf") as [d|] eqn:Hd.
  - destruct (buildSupportedOps_rooted _ Hall) as [supported_ops Hsup].
    eexists _, _.
    split; [by apply runOnOperation_registered|]. simpl.
    split; [by apply runOnOperation_registered|]. simpl.
    split; [done|].
    split; [intros q k; apply second_run_attrs|].
    intros q. apply marked_ext, second_run_attrs.
  - eexists _, _.
    split; [by apply runOnOperation_unregistered|]. simpl.
    split; [by apply runOnOperation_unregistered|]. done.
Qed.

Lemma markedByWalker_unvisited tf_dialect supported_ops visit q :
  q ∉ visit.*1 →
  markedByWalker ctx fallback tf_dialect supported_ops visit q = false.
Proof.
  intros Hq. apply not_true_is_false. intros Hm.
  apply markedByWalker_spec in Hm as (o & Hin & _).
  apply Hq. apply list_elem_of_fmap. by exists (q, o).
Qed.

(** Outside the bodies of the clusters that allow soft placement the two
    walks write nothing. *)
Lemma unvisited_unchanged tf_dialect supported_ops module st q k :
  q ∉ (gatedBodies st module).*1 →
  getAttr
    (afterPruner module st
       (afterWalker ctx fallback tf_dialect supported_ops module st)) q k
  = getAttr st q k.
Proof.
  intros Hq. rewrite getAttr_afterPruner, getAttr_afterWalker.
  rewrite markedByWalker_unvisited by done.
  rewrite (bool_decide_eq_false_2 _ Hq).
  by rewrite !andb_false_r.
Qed.

(** C3, amended. A cluster whose soft-placement flag is false or absent,
    and that neither lies inside nor contains a cluster whose flag is true,
    keeps the attribute dictionary of every operation of its subtree, the
    cluster operation included. *)
Theorem ungated_cluster_untouched module st :
  allRooted (populate ctx) →
  ∃ res, run module st = Some res
    ∧ ∀ cluster q,
        cluster ∈ clustersOf module → gated st cluster.1 = false →
        (∀ g, g ∈ clustersOf module → gated st g.1 = true →
              ¬ properAncestor g.1 cluster.1 ∧ ¬ properAncestor cluster.1 g.1) →
        ancestorOrSelf cluster.1 q →
        resultAttrs res q = st q.
Proof.
  intros Hall.
  destruct (runOnOperation_rooted ctx fallback populate module st Hall)
    as [[_ Hrun]|(d & supported_ops & _ & Hrun)];
    (eexists; split; [exact Hrun|]); simpl; [done|].
  intros cluster q Hc Hungated Hapart Hq.
  apply map_eq. intros k. apply unvisited_unchanged.
  intros ([q' o] & Heq & Hin)%list_elem_of_fmap. simpl in Heq. subst q'.
  apply elem_of_gatedBodies in Hin as (g & Hg & Hgated & Hin).
  apply body_properAncestor in Hin.
  destruct (Hapart g Hg Hgated) as [Hup Hdown].
  destruct (ancestors_comparable cluster.1 g.1 q Hq (or_intror Hin))
    as [[Heq|Hlt]|[Heq|Hlt]]; try done; congruence.
Qed.

Lemma isa_spec kind op : isa kind op = true ↔ getName op = kind.
Proof. unfold isa. apply bool_decide_eq_true. Qed.

(** The Walker only marks operations of the target dialect. *)
Lemma mustMark_target_dialect supported_ops op :
  mustMark ctx fallback (getLoadedDialect ctx "tf") supported_ops op = true →
  getDialect ctx op.2 = getLoadedDialect ctx "tf".
Proof.
  unfold mustMark, IsSupportedOp. intros [Hunsupported|Hregion]%orb_true_iff.
  - destruct (bool_decide (getDialect ctx op.2 = getLoadedDialect ctx "tf"))
      eqn:Hdialect; [|done].
    by apply bool_decide_eq_true in Hdialect.
  - apply andb_true_iff in Hregion as [Hkind _].
    unfold getDialect.
    apply orb_true_iff in Hkind as [->%isa_spec| ->%isa_spec]; done.
Qed.

(** C6. An operation of the module whose dialect is not the target
    dialect never receives the marker: after the run its marker attribute
    is what it was, or is gone, so an operation that did not carry the
    marker does not carry it, whatever the types of its operands and
    results. *)
Theorem foreign_dialect_never_marked module st :
  allRooted (populate ctx) →
  ∃ res, run module st = Some res
    ∧ ∀ q o,
        (q, o) ∈ walkOperation [] module →
        getDialect ctx o ≠ getLoadedDialect ctx "tf" →
        (getAttr (resultAttrs res) q kXlaOutsideCompilationAttr
         = getAttr st q kXlaOutsideCompilationAttr
         ∨ getAttr (resultAttrs res) q kXlaOutsideCompilationAttr = None)
        ∧ (marked st q = false → marked (resultAttrs res) q = false).
Proof.
  intros Hall.
  destruct (runOnOperation_rooted ctx fallback populate module st Hall)
    as [[_ Hrun]|(d & supported_ops & Hd & Hrun)];
    (eexists; split; [exact Hrun|]); simpl; [by auto|].
  intros q o Hq Hforeign.
  assert (markedByWalker ctx fallback (Some d) supported_ops
            (gatedBodies st module) q = false) as Hnot.
  { apply not_true_is_false. intros Hm.
    apply markedByWalker_spec in Hm as (o' & Hin & Hm).
    apply gatedBodies_in_module in Hin.
    rewrite (walkOperation_functional module q o' o Hin Hq) in Hm.
    rewrite <- Hd in Hm. by apply mustMark_target_dialect in Hm. }
  split.
  - rewrite getAttr_afterPruner, getAttr_afterWalker, Hnot, andb_false_r.
    destruct (_ && _ && _ && _); auto.
  - intros Hm. rewrite marked_afterPruner, marked_afterWalker, Hnot, Hm. done.
Qed.

Lemma isa_StringType_spec ty : isa_StringType ty = true ↔ ty = StringType.
Proof. by destruct ty. Qed.

Lemma HasStringOperand_spec op :
  HasStringOperand op = true ↔
  ∃ operand, operand ∈ getOperands op
             ∧ getElementTypeOrSelf (getType operand) = StringType.
Proof.
  unfold HasStringOperand. rewrite existsb_exists.
  by setoid_rewrite isa_StringType_spec; setoid_rewrite list_elem_of_In.
Qed.

Lemma HasStringResult_spec op :
  HasStringResult op = true ↔
  ∃ result, result ∈ getResults op ∧ getElementTypeOrSelf result = StringType.
Proof.
  unfold HasStringResult. rewrite existsb_exists.
  by setoid_rewrite isa_StringType_spec; setoid_rewrite list_elem_of_In.
Qed.

(** What the Walker leaves on an operation of the body of a cluster that
    allows soft placement, when its callback decides to mark it. *)
Lemma walker_marks tf_dialect supported_ops module st cluster q o :
  cluster ∈ clustersOf module → gated st cluster.1 = true →
  (q, o) ∈ Block_walk (GetBody cluster) →
  mustMark ctx fallback tf_dialect supported_ops (q, o) = true →
  ∃ st', markClusters ctx fallback tf_dialect supported_ops module st
         = (advance, st')
         ∧ getAttr st' q kXlaOutsideCompilationAttr = Some (StringAttr "auto").
Proof.
  intros Hc Hg Hq Hm. eexists. split; [apply markClusters_eq|].
  rewrite getAttr_mark_walk.
  rewrite (bool_decide_eq_true_2
             (kXlaOutsideCompilationAttr = kXlaOutsideCompilationAttr)) by done.
  simpl.
  assert (markedByWalker ctx fallback tf_dialect supported_ops
            (gatedBodies st module) q = true) as ->; [|done].
  apply markedByWalker_spec. exists o. split; [|done].
  apply elem_of_gatedBodies. by exists cluster.
Qed.

(** C4. When the first walk over the clusters (the Walker) is over, and
    before the Pruner starts, every operation of the target dialect in the
    body of a cluster that allows soft placement that has an operand or a
    result whose element type is the string type carries the marker. *)
Theorem string_typed_op_marked supported_ops module st cluster q o :
  cluster ∈ clustersOf module → gated st cluster.1 = true →
  (q, o) ∈ Block_walk (GetBody cluster) →
  getDialect ctx o = getLoadedDialect ctx "tf" →
  (∃ operand, operand ∈ getOperands o
              ∧ getElementTypeOrSelf (getType operand) = StringType)
  ∨ (∃ result, result ∈ getResults o
               ∧ getElementTypeOrSelf result = StringType) →
  ∃ st', markClusters ctx fallback (getLoadedDialect ctx "tf") supported_ops
           module st = (advance, st')
         ∧ getAttr st' q kXlaOutsideCompilationAttr = Some (StringAttr "auto")
         ∧ marked st' q = true.
Proof.
  intros Hc Hg Hq Hdialect Hstring.
  destruct (walker_marks (getLoadedDialect ctx "tf") supported_ops module st
              cluster q o Hc Hg Hq) as (st' & Hwalk & Hattr).
  - unfold mustMark, IsSupportedOp. simpl.
    rewrite (bool_decide_eq_true_2 _ Hdialect). simpl.
    destruct Hstring as [Hoperand%HasStringOperand_spec
                        |Hresult%HasStringResult_spec].
    + by rewrite Hoperand.
    + by rewrite Hresult, andb_false_r.
  - exists st'. repeat split; [done..|].
    unfold marked, hasStringAttr. by rewrite Hattr.
Qed.

Lemma elem_of_visitUsedValuesDefinedAbove owner r region v :
  v ∈ visitUsedValuesDefinedAbove owner r region ↔
  ∃ user, user ∈ walkRegion owner r region ∧ v ∈ getOperands user.2
          ∧ ∃ reg, Value_getParentRegion v = Some reg
                   ∧ reg ∈ properAncestors owner.
Proof.
  unfold visitUsedValuesDefinedAbove.
  rewrite list_elem_of_In, in_flat_map.
  setoid_rewrite <- list_elem_of_In. setoid_rewrite list_elem_of_filter.
  unfold definedIn. split.
  - intros (user & Huser & Hdef & Hv). exists user. repeat split; [done..|].
    destruct (Value_getParentRegion v) as [reg|]; [|done].
    exists reg. split; [done|]. by apply bool_decide_eq_true in Hdef.
  - intros (user & Huser & Hv & reg & -> & Hreg). exists user.
    repeat split; [done| |done]. by apply bool_decide_eq_true.
Qed.

Lemma string_flag_fold (operands : list Value) flag :
  fold_left (fun flag operand =>
               if isa_StringType (getElementTypeOrSelf (getType operand))
               then true else flag) operands flag
  = flag || existsb (fun operand =>
                       isa_StringType (getElementTypeOrSelf (getType operand)))
              operands.
Proof.
  revert flag. induction operands as [|v l IH]; intros flag; simpl.
  - by rewrite orb_false_r.
  - rewrite IH. by destruct (isa_StringType _), flag.
Qed.

(** The loop over the regions answers true exactly when the flag is
    already set or some region uses a string value defined above it. *)
Lemma HasCapturedStringOperand_from_spec owner r regions flag :
  HasCapturedStringOperand_from owner r regions flag = true ↔
  flag = true
  ∨ ∃ i region v, regions !! i = Some region
      ∧ v ∈ visitUsedValuesDefinedAbove owner (r + i) region
      ∧ getElementTypeOrSelf (getType v) = StringType.
Proof.
  revert r flag. induction regions as [|region regions IH]; intros r flag; simpl.
  - split; [by left|]. by intros [?|(i & ? & ? & ? & _)].
  - rewrite string_flag_fold.
    destruct (flag || existsb _ _) eqn:Hflag.
    + split; [intros _|done].
      apply orb_true_iff in Hflag as [?|Hex]; [by left|]. right.
      apply existsb_exists in Hex as (v & Hv & Hs).
      exists 0, region, v. rewrite Nat.add_0_r.
      repeat split; [by apply list_elem_of_In|by apply isa_StringType_spec].
    + apply orb_false_iff in Hflag as [-> Hnone]. rewrite IH. split.
      * intros [?|(i & region' & v & Hi & Hv & Hs)]; [done|]. right.
        exists (S i), region', v. by rewrite Nat.add_succ_r.
      * intros [?|([|i] & region' & v & Hi & Hv & Hs)]; [done| |].
        -- simpl in Hi. simplify_eq. rewrite Nat.add_0_r in Hv.
           assert (existsb (fun operand =>
                     isa_StringType (getElementTypeOrSelf (getType operand)))
                     (visitUsedValuesDefinedAbove owner r region') = true)
             as Hex; [|congruence].
           apply existsb_exists. exists v.
           split; [by apply list_elem_of_In|by apply isa_StringType_spec].
        -- right. exists i, region', v. by rewrite Nat.add_succ_r in Hv.
Qed.

Lemma HasCapturedStringOperand_spec q o :
  HasCapturedStringOperand (q, o) = true ↔
  ∃ r region user v reg,
    getRegions o !! r = Some region
    ∧ user ∈ walkRegion q r region ∧ v ∈ getOperands user.2
    ∧ Value_getParentRegion v = Some reg ∧ reg ∈ properAncestors q
    ∧ getElementTypeOrSelf (getType v) = StringType.
Proof.
  unfold HasCapturedStringOperand. rewrite HasCapturedStringOperand_from_spec.
  simpl. split.
  - intros [?|(r & region & v & Hr & Hv & Hs)]; [done|].
    apply elem_of_visitUsedValuesDefinedAbove in Hv
      as (user & Huser & Hv & reg & Hreg & Hanc).
    by exists r, region, user, v, reg.
  - intros (r & region & user & v & reg & Hr & Huser & Hv & Hreg & Hanc & Hs).
    right. exists r, region, v. repeat split; [done| |done].
    apply elem_of_visitUsedValuesDefinedAbove. exists user.
    repeat split; [done..|]. by exists reg.
Qed.

(** C5. A conditional-region or loop-region operation in the body of a
    cluster that allows soft placement, one of whose regions holds an
    operation that uses a value of string element type defined in a region
    that properly encloses that region, carries the marker when the Walker
    is over, whatever the supported set holds, its own kind included. *)
Theorem captured_string_marks_region_op tf_dialect supported_ops module st
    cluster q o r region user v reg :
  cluster ∈ clustersOf module → gated st cluster.1 = true →
  (q, o) ∈ Block_walk (GetBody cluster) →
  getName o = TF.IfRegionOp ∨ getName o = TF.WhileRegionOp →
  getRegions o !! r = Some region →
  user ∈ walkRegion q r region → v ∈ getOperands user.2 →
  Value_getParentRegion v = Some reg → reg ∈ properAncestors q →
  getElementTypeOrSelf (getType v) = StringType →
  ∃ st', markClusters ctx fallback tf_dialect supported_ops module st
         = (advance, st')
         ∧ getAttr st' q kXlaOutsideCompilationAttr = Some (StringAttr "auto")
         ∧ marked st' q = true.
Proof.
  intros Hc Hg Hq Hkind Hr Huser Hv Hreg Hanc Hs.
  destruct (walker_marks tf_dialect supported_ops module st cluster q o Hc Hg Hq)
    as (st' & Hwalk & Hattr).
  - unfold mustMark. apply orb_true_iff. right. apply andb_true_iff. split.
    + apply orb_true_iff. simpl. rewrite !isa_spec. done.
    + apply HasCapturedStringOperand_spec.
      by exists r, region, user, v, reg.
  - exists st'. repeat split; [done..|].
    unfold marked, hasStringAttr. by rewrite Hattr.
Qed.

Lemma properAncestor_trans a c q :
  ancestorOrSelf a c → properAncestor c q → properAncestor a q.
Proof.
  intros Ha. induction q as [|pos p IH]; intros Hc.
  - by apply properAncestor_nil in Hc.
  - apply properAncestor_cons. apply properAncestor_cons in Hc as [->|Hc].
    + done.
    + right. by apply IH.
Qed.



(** C10. The loop over the parents goes past the cluster: when the
    cluster operation itself, or an operation above it, carries the
    marker, the Pruner leaves no marker on any operation of the body of
    the cluster. *)
Theorem pruner_looks_above_cluster cluster st a :
  ancestorOrSelf a cluster.1 → marked st a = true →
  ∀ q o, (q, o) ∈ Block_walk (GetBody cluster) →
         marked (UnmarkChildren (GetBody cluster) st) q = false.
Proof.
  intros Ha Hm q o Hq. unfold UnmarkChildren, UnmarkChildren_in.
  rewrite marked_unmark_walk.
  rewrite bool_decide_eq_true_2
    by (apply list_elem_of_fmap; by exists (q, o)).
  assert (hasMarkedParent st q = true) as ->.
  { apply hasMarkedParent_spec. exists a. split; [|done].
    apply properAncestor_trans with cluster.1; [done|].
    by apply body_properAncestor with o. }
  apply andb_false_r.
Qed.

(** What holds of the error handling: a context without the target dialect
    makes the run emit the diagnostic on the module and fail with every
    attribute as it was; a run that has a result fails for no other reason;
    and with the dialect loaded the run succeeds without a diagnostic for
    every catalog whose patterns have a root kind, the empty catalog among
    them. *)
Theorem missing_dialect_only_failure :
  (∀ module st,
     getLoadedDialect ctx "tf" = None →
     run module st
     = Some {| resultAttrs := st;
               diagnostics := ["'tf' dialect is not registered"];
               passFailed := true |})
  ∧ (∀ module st res,
       run module st = Some res →
       passFailed res = true ∨ diagnostics res ≠ [] →
       getLoadedDialect ctx "tf" = None)
  ∧ (∀ module st,
       getLoadedDialect ctx "tf" ≠ None → allRooted (populate ctx) →
       ∃ res, run module st = Some res ∧ passFailed res = false
              ∧ diagnostics res = []).
Proof.
  split; [|split].
  - intros module st. apply runOnOperation_unregistered.
  - intros module st res Hrun Hfailed.
    destruct (getLoadedDialect ctx "tf") as [d|] eqn:Hd; [|done].
    unfold runOnOperation in Hrun. rewrite Hd in Hrun.
    destruct (buildSupportedOps (populate ctx)) as [supported_ops|]; [|done].
    rewrite markClusters_eq in Hrun. simpl in Hrun. simplify_eq.
    simpl in Hfailed. by destruct Hfailed.
  - intros module st Hloaded Hall.
    destruct (runOnOperation_rooted ctx fallback populate module st Hall)
      as [[Hnone _]|(d & supported_ops & _ & Hrun)]; [done|].
    eexists. by split; [exact Hrun|].
Qed.
End Claims.

(** What the supported set holds when every pattern has a root kind: the
    root kinds of the catalog and the five fixed kinds. *)
Lemma buildSupportedOps_contents patterns :
  allRooted patterns →
  ∃ supported_ops, buildSupportedOps patterns = Some supported_ops
    ∧ ∀ kind, kind ∈ supported_ops ↔
        kind ∈ [TF.IfRegionOp; TF.WhileRegionOp; TF.YieldOp;
                TF.RecvTPUEmbeddingActivationsOp; TF.SendTPUEmbeddingGradientsOp]
        ∨ ∃ pattern, pattern ∈ patterns ∧ getRootKind pattern = Some kind.
Proof.
  intros Hall. unfold buildSupportedOps.
  destruct (insertRootKinds_rooted patterns ∅ Hall) as (result & -> & Hres).
  eexists. split; [done|]. intros kind.
  unfold AddRewrittenEmbeddingOps, AddSupportedControlFlowOps.
  rewrite !elem_of_union, !elem_of_singleton, Hres, !elem_of_cons,
    elem_of_nil, elem_of_empty.
  tauto.
Qed.

(** C8. A catalog that holds a pattern without a root kind does not get
    that pattern skipped: the loop dereferences the missing root kind, no
    supported set is built and the run has no result. *)
Theorem rootless_pattern_not_skipped :
  insertRootKinds [rootedPattern "tf.AddV2"; anyOpPattern] ∅ = None
  ∧ buildSupportedOps [rootedPattern "tf.AddV2"; anyOpPattern] = None
  ∧ runOnOperation tfContext noFallback
      (fun _ => [rootedPattern "tf.AddV2"; anyOpPattern])
      nestedUnsupported softPlacementOnFirst = None.
Proof. repeat split. Qed.

(** With the dialect loaded, a catalog that holds a pattern without a root
    kind leaves the run without a result, whatever the module. *)
Lemma runOnOperation_rootless ctx fallback populate module st :
  getLoadedDialect ctx "tf" ≠ None → ¬ allRooted (populate ctx) →
  runOnOperation ctx fallback populate module st = None.
Proof.
  intros Hloaded Hnot. unfold runOnOperation, buildSupportedOps.
  destruct (getLoadedDialect ctx "tf"); [|done].
  by rewrite (insertRootKinds_rootless _ _ Hnot).
Qed.

(** C9. The missing dialect is not the only way for a run not to complete:
    with the target dialect loaded and a catalog whose one pattern has no
    root kind, the run on a module without any cluster has no result, where
    the same run with the empty catalog succeeds without a diagnostic and
    leaves the attributes as they were. *)
Theorem rootless_catalog_run_has_no_result :
  getLoadedDialect tfContext "tf" = Some "tf"
  ∧ clustersOf plainModule = []
  ∧ runOnOperation tfContext noFallback (fun _ => [anyOpPattern]) plainModule
      noAttrs = None
  ∧ runOnOperation tfContext noFallback emptyCatalog plainModule noAttrs
    = Some {| resultAttrs := noAttrs; diagnostics := []; passFailed := false |}.
Proof. repeat split. Qed.

(** ** The properties at work on the example modules *)

Ltac in_list :=
  apply list_elem_of_In; vm_compute;
  repeat first [left; reflexivity | right].

Ltac not_ancestor H :=
  repeat (apply properAncestor_cons in H as [H|H]; [discriminate|]);
  by apply properAncestor_nil in H.

Lemma ancestor_subsumption_witness :
  ∃ res,
    runOnOperation tfContext noFallback emptyCatalog nestedUnsupported
      softPlacementOnFirst = Some res
    ∧ marked (resultAttrs res) ((0, 0, 0) :: firstCluster) = true
    ∧ marked (resultAttrs res) firstCluster = false.
Proof.
  destruct (ancestor_subsumption tfContext noFallback emptyCatalog
              nestedUnsupported softPlacementOnFirst)
    as (res & Hrun & _ & Hinv).
  - vm_compute. discriminate.
  - constructor.
  - exists res. split; [exact Hrun|].
    assert (marked (resultAttrs res) ((0, 0, 0) :: firstCluster) = true) as Hm.
    { change (match Some res with
              | Some r => marked (resultAttrs r) ((0, 0, 0) :: firstCluster)
              | None => false
              end = true).
      rewrite <- Hrun. vm_compute. reflexivity. }
    split; [exact Hm|].
    apply (Hinv (firstCluster, softCluster) ((0, 0, 0) :: firstCluster)
             outerUnsupported firstCluster).
    + in_list.
    + vm_compute. reflexivity.
    + in_list.
    + exact Hm.
    + apply properAncestor_parent. reflexivity.
Defined.

Lemma pass_idempotent_witness :
  ∃ res1 res2,
    runOnOperation tfContext noFallback emptyCatalog nestedUnsupported
      softPlacementOnFirst = Some res1
    ∧ runOnOperation tfContext noFallback emptyCatalog nestedUnsupported
        (resultAttrs res1) = Some res2
    ∧ marked (resultAttrs res1) ((0, 0, 0) :: firstCluster) = true
    ∧ marked (resultAttrs res2) ((0, 0, 0) :: firstCluster) = true
    ∧ marked (resultAttrs res2) ((0, 0, 0) :: (0, 0, 0) :: firstCluster) = false.
Proof.
  destruct (pass_idempotent tfContext noFallback emptyCatalog nestedUnsupported
              softPlacementOnFirst)
    as (res1 & res2 & Hrun1 & Hrun2 & _ & _ & Hsame).
  - constructor.
  - exists res1, res2. split; [exact Hrun1|]. split; [exact Hrun2|].
    assert (∀ q b,
              match runOnOperation tfContext noFallback emptyCatalog
                      nestedUnsupported softPlacementOnFirst with
              | Some r => marked (resultAttrs r) q
              | None => negb b
              end = b →
              marked (resultAttrs res1) q = b) as Hfirst.
    { intros q b. by rewrite Hrun1. }
    split; [by apply Hfirst|].
    rewrite !Hsame. split; by apply Hfirst.
Defined.

(** C3, as stated, fails: the cluster nested in the first cluster has no
    soft-placement flag, and the run sets the marker on the operation it
    holds, because the cluster around it allows soft placement. *)
Lemma ungated_nested_cluster_marked :
  ∃ res,
    runOnOperation tfContext noFallback emptyCatalog nestedClusters
      softPlacementOnFirst = Some res
    ∧ ((0, 0, 0) :: firstCluster, clusterOf [innerUnsupported])
        ∈ clustersOf nestedClusters
    ∧ getAttr softPlacementOnFirst ((0, 0, 0) :: firstCluster)
        kAllowSoftPlacementAttr = None
    ∧ properAncestor ((0, 0, 0) :: firstCluster)
        ((0, 0, 0) :: (0, 0, 0) :: firstCluster)
    ∧ marked softPlacementOnFirst ((0, 0, 0) :: (0, 0, 0) :: firstCluster)
      = false
    ∧ marked (resultAttrs res) ((0, 0, 0) :: (0, 0, 0) :: firstCluster) = true.
Proof.
  eexists. split; [vm_compute; reflexivity|].
  split; [in_list|]. split; [vm_compute; reflexivity|].
  split; [by apply properAncestor_parent|].
  split; vm_compute; reflexivity.
Qed.

Lemma softPlacementOnFirst_gated g :
  gated softPlacementOnFirst g = true → g = firstCluster.
Proof.
  unfold gated, hasTrueBoolAttr, softPlacementOnFirst.
  rewrite getAttr_setAttr. case_bool_decide; [done|]. simpl.
  unfold getAttr, noAttrs. by rewrite lookup_empty.
Qed.

Lemma ungated_cluster_untouched_witness :
  ∃ res,
    runOnOperation tfContext noFallback emptyCatalog twoClusters
      softPlacementOnFirst = Some res
    ∧ resultAttrs res ((0, 0, 0) :: secondCluster)
      = softPlacementOnFirst ((0, 0, 0) :: secondCluster)
    ∧ marked (resultAttrs res) ((0, 0, 0) :: firstCluster) = true.
Proof.
  destruct (ungated_cluster_untouched tfContext noFallback emptyCatalog
              twoClusters softPlacementOnFirst)
    as (res & Hrun & Hframe).
  - constructor.
  - exists res. split; [exact Hrun|]. split.
    + apply (Hframe (secondCluster, clusterOf [innerUnsupported])).
      * in_list.
      * vm_compute. reflexivity.
      * intros g _ Hg. apply softPlacementOnFirst_gated in Hg. rewrite Hg.
        simpl. split; intros Hanc; not_ancestor Hanc.
      * right. by apply properAncestor_parent.
    + change (match Some res with
              | Some r => marked (resultAttrs r) ((0, 0, 0) :: firstCluster)
              | None => false
              end = true).
      rewrite <- Hrun. vm_compute. reflexivity.
Defined.

Lemma string_typed_op_marked_witness :
  ∃ st',
    markClusters tfContext noFallback (getLoadedDialect tfContext "tf") ∅
      loopModule softPlacementOnFirst = (advance, st')
    ∧ getAttr st' ((0, 0, 0) :: firstCluster) kXlaOutsideCompilationAttr
      = Some (StringAttr "auto")
    ∧ marked st' ((0, 0, 0) :: firstCluster) = true.
Proof.
  apply (string_typed_op_marked tfContext noFallback ∅ loopModule
           softPlacementOnFirst (firstCluster, loopCluster)
           ((0, 0, 0) :: firstCluster) stringConst).
  - in_list.
  - vm_compute. reflexivity.
  - in_list.
  - vm_compute. reflexivity.
  - right. exists (tensor StringType). split; [in_list|reflexivity].
Defined.

Lemma captured_string_marks_region_op_witness :
  IsSupportedOp tfContext noFallback capturingLoop (AddSupportedControlFlowOps ∅)
    (getLoadedDialect tfContext "tf") = true
  ∧ ∃ st',
      markClusters tfContext noFallback (getLoadedDialect tfContext "tf")
        (AddSupportedControlFlowOps ∅) loopModule softPlacementOnFirst
      = (advance, st')
      ∧ getAttr st' loopPtr kXlaOutsideCompilationAttr = Some (StringAttr "auto")
      ∧ marked st' loopPtr = true.
Proof.
  split; [vm_compute; reflexivity|].
  apply (captured_string_marks_region_op tfContext noFallback
           (getLoadedDialect tfContext "tf") (AddSupportedControlFlowOps ∅)
           loopModule softPlacementOnFirst (firstCluster, loopCluster)
           loopPtr capturingLoop 1 bodyRegion
           ((1, 0, 0) :: loopPtr, lengthOp) stringValue (firstCluster, 0)).
  - in_list.
  - vm_compute. reflexivity.
  - in_list.
  - by right.
  - reflexivity.
  - in_list.
  - in_list.
  - reflexivity.
  - in_list.
  - reflexivity.
Defined.

Lemma foreign_dialect_never_marked_witness :
  ∃ res,
    runOnOperation tfContext noFallback emptyCatalog foreignModule
      softPlacementOnFirst = Some res
    ∧ HasStringResult foreignStringOp = true
    ∧ marked (resultAttrs res) ((0, 0, 0) :: firstCluster) = false.
Proof.
  destruct (foreign_dialect_never_marked tfContext noFallback emptyCatalog
              foreignModule softPlacementOnFirst)
    as (res & Hrun & Hforeign).
  - constructor.
  - exists res. split; [exact Hrun|]. split; [reflexivity|].
    apply (Hforeign ((0, 0, 0) :: firstCluster) foreignStringOp).
    + in_list.
    + vm_compute. discriminate.
    + vm_compute. reflexivity.
Defined.


Lemma missing_dialect_only_failure_witness :
  runOnOperation noTfContext noFallback emptyCatalog nestedUnsupported
    softPlacementOnFirst
  = Some {| resultAttrs := softPlacementOnFirst;
            diagnostics := ["'tf' dialect is not registered"];
            passFailed := true |}
  ∧ getLoadedDialect noTfContext "tf" = None
  ∧ ∃ res,
      runOnOperation tfContext noFallback emptyCatalog nestedUnsupported
        softPlacementOnFirst = Some res
      ∧ passFailed res = false ∧ diagnostics res = [].
Proof.
  destruct (missing_dialect_only_failure noTfContext noFallback emptyCatalog)
    as (Hmissing & Honly & _).
  destruct (missing_dialect_only_failure tfContext noFallback emptyCatalog)
    as (_ & _ & Hsuccess).
  assert (getLoadedDialect noTfContext "tf" = None) as Hnone
    by (vm_compute; reflexivity).
  split; [apply Hmissing, Hnone|].
  split.
  - apply (Honly nestedUnsupported softPlacementOnFirst _
             (Hmissing nestedUnsupported softPlacementOnFirst Hnone)).
    by left.
  - apply Hsuccess; [vm_compute; discriminate|constructor].
Defined.

Lemma pruner_looks_above_cluster_witness :
  marked markedCluster ((0, 0, 0) :: firstCluster) = true
  ∧ marked (UnmarkChildren (GetBody (firstCluster, softCluster)) markedCluster)
      ((0, 0, 0) :: firstCluster) = false.
Proof.
  split; [vm_compute; reflexivity|].
  apply (pruner_looks_above_cluster (firstCluster, softCluster) markedCluster
           firstCluster) with outerUnsupported.
  - by left.
  - vm_compute. reflexivity.
  - in_list.
Defined.

(** ** Further properties of the Pruner *)

Lemma hasMarkedParent_unmark_walk visit st q :
  hasMarkedParent (walkVoid unmarkCallback visit st) q = hasMarkedParent st q.
Proof.
  apply hasMarkedParent_stable. intros p. rewrite marked_unmark_walk.
  destruct (marked st p), (bool_decide (p ∈ visit.*1)),
    (hasMarkedParent st p); simpl; auto.
Qed.

Lemma unmark_walk_twice visit st q k :
  getAttr (walkVoid unmarkCallback visit (walkVoid unmarkCallback visit st)) q k
  = getAttr (walkVoid unmarkCallback visit st) q k.
Proof.
  rewrite (getAttr_unmark_walk visit (walkVoid unmarkCallback visit st)).
  rewrite hasMarkedParent_unmark_walk, marked_unmark_walk.
  destruct (bool_decide (k = kXlaOutsideCompilationAttr)),
    (bool_decide (q ∈ visit.*1)), (marked st q), (hasMarkedParent st q); done.
Qed.

(** X1. The only thing [UnmarkChildren] ever does to an attribute is to
    remove the string-valued marker of an operation of the block that has a
    marked strict ancestor: every other attribute of every operation, a
    marker attribute that is not a string included, stays as it was. *)
Theorem pruner_only_removes block st q k :
  getAttr (UnmarkChildren block st) q k = getAttr st q k
  ∨ (k = kXlaOutsideCompilationAttr
     ∧ getAttr (UnmarkChildren block st) q k = None
     ∧ q ∈ (Block_walk block).*1
     ∧ (∃ value, getAttr st q k = Some (StringAttr value))
     ∧ ∃ a, properAncestor a q ∧ marked st a = true).
Proof.
  unfold UnmarkChildren, UnmarkChildren_in. rewrite getAttr_unmark_walk.
  destruct (bool_decide (k = kXlaOutsideCompilationAttr)) eqn:Hk; [|by left].
  destruct (bool_decide (q ∈ (Block_walk block).*1)) eqn:Hq; [|by left].
  destruct (marked st q) eqn:Hm; [|by left].
  destruct (hasMarkedParent st q) eqn:Hp; [|by left].
  simpl. right.
  apply bool_decide_eq_true in Hk. apply bool_decide_eq_true in Hq. subst k.
  split; [done|]. split; [done|]. split; [done|]. split.
  - unfold marked, hasStringAttr in Hm.
    destruct (getAttr st q kXlaOutsideCompilationAttr) as [[value| | |]|];
      try done. by exists value.
  - by apply hasMarkedParent_spec.
Qed.

(** X2. [UnmarkChildren] keeps what is extracted: an operation carries the
    marker or lies below an operation that carries it after the Pruner
    exactly when it did before.  The outermost marked operation of a chain
    is never unmarked. *)
Theorem pruner_preserves_coverage block st q :
  (marked (UnmarkChildren block st) q = true
   ∨ ∃ a, properAncestor a q ∧ marked (UnmarkChildren block st) a = true)
  ↔ (marked st q = true ∨ ∃ a, properAncestor a q ∧ marked st a = true).
Proof.
  rewrite <- !hasMarkedParent_spec. unfold UnmarkChildren, UnmarkChildren_in.
  rewrite hasMarkedParent_unmark_walk, marked_unmark_walk.
  destruct (marked st q), (bool_decide (q ∈ (Block_walk block).*1)),
    (hasMarkedParent st q); simpl; split; intros [?|?]; auto.
Qed.

(** X3. Pruning twice is pruning once, for one block and for the second
    walk of the pass over all the clusters. *)
Theorem pruner_idempotent block module st q :
  UnmarkChildren block (UnmarkChildren block st) q = UnmarkChildren block st q
  ∧ unmarkClusters module (unmarkClusters module st) q
    = unmarkClusters module st q.
Proof.
  split; apply map_eq; intros k.
  - apply (unmark_walk_twice (Block_walk block) st q k).
  - rewrite !unmarkClusters_eq.
    rewrite (gatedBodies_ext st (walkVoid unmarkCallback (gatedBodies st module) st)).
    + apply (unmark_walk_twice (gatedBodies st module) st q k).
    + intros c. rewrite getAttr_unmark_walk.
      by rewrite (bool_decide_eq_false_2 _ attr_names_differ).
Qed.

(** ** Further properties of the Walker *)

Lemma marked_mark_walk ctx fallback tf_dialect supported_ops visit st q :
  marked (walkVoid (markCallback ctx fallback tf_dialect supported_ops) visit st) q
  = markedByWalker ctx fallback tf_dialect supported_ops visit q || marked st q.
Proof.
  unfold marked at 1, hasStringAttr. rewrite getAttr_mark_walk.
  rewrite (bool_decide_eq_true_2
             (kXlaOutsideCompilationAttr = kXlaOutsideCompilationAttr)) by done.
  by destruct (markedByWalker _ _ _ _ _ _).
Qed.

Lemma mustMark_false ctx fallback tf_dialect supported_ops q o :
  IsSupportedOp ctx fallback o supported_ops tf_dialect = true →
  (getName o = TF.IfRegionOp ∨ getName o = TF.WhileRegionOp →
   HasCapturedStringOperand (q, o) = false) →
  mustMark ctx fallback tf_dialect supported_ops (q, o) = false.
Proof.
  intros Hsup Hcap. unfold mustMark. simpl. rewrite Hsup. simpl.
  destruct (isa TF.IfRegionOp o || isa TF.WhileRegionOp o) eqn:Hkind; [|done].
  simpl. apply Hcap.
  apply orb_true_iff in Hkind as [Hk|Hk]; apply isa_spec in Hk; auto.
Qed.

(** X4. The first walk over the clusters never interrupts and only ever
    sets the marker: it leaves every other attribute alone, it leaves a
    marker attribute as it was or sets it to "auto", it never takes a
    marker away, and it writes nothing outside the bodies of the clusters
    that allow soft placement. *)
Theorem walker_only_sets ctx fallback tf_dialect supported_ops module st :
  ∃ st',
    markClusters ctx fallback tf_dialect supported_ops module st = (advance, st')
    ∧ (∀ q k, k ≠ kXlaOutsideCompilationAttr → getAttr st' q k = getAttr st q k)
    ∧ (∀ q, getAttr st' q kXlaOutsideCompilationAttr
            = getAttr st q kXlaOutsideCompilationAttr
            ∨ getAttr st' q kXlaOutsideCompilationAttr = Some (StringAttr "auto"))
    ∧ (∀ q, marked st q = true → marked st' q = true)
    ∧ (∀ q, q ∉ (gatedBodies st module).*1 → st' q = st q).
Proof.
  eexists. split; [apply markClusters_eq|]. split; [|split; [|split]].
  - intros q k Hk. rewrite getAttr_mark_walk.
    by rewrite (bool_decide_eq_false_2 _ Hk).
  - intros q. rewrite getAttr_mark_walk.
    destruct (_ && _); auto.
  - intros q Hm. rewrite marked_mark_walk, Hm. apply orb_true_r.
  - intros q Hq. apply map_eq. intros k.
    change (getAttr (walkVoid (markCallback ctx fallback tf_dialect supported_ops)
                       (gatedBodies st module) st) q k = getAttr st q k).
    rewrite getAttr_mark_walk, markedByWalker_unvisited by done.
    by rewrite andb_false_r.
Qed.

(** X5. The Walker leaves alone every operation of the module that
    [IsSupportedOp] accepts, unless it is a conditional or loop region that
    captures a string value: the attributes of such an operation are the
    same after the first walk, however many cluster bodies it lies in. *)
Theorem walker_skips_supported ctx fallback tf_dialect supported_ops module st q o :
  (q, o) ∈ walkOperation [] module →
  IsSupportedOp ctx fallback o supported_ops tf_dialect = true →
  (getName o = TF.IfRegionOp ∨ getName o = TF.WhileRegionOp →
   HasCapturedStringOperand (q, o) = false) →
  ∃ st',
    markClusters ctx fallback tf_dialect supported_ops module st = (advance, st')
    ∧ st' q = st q.
Proof.
  intros Hq Hsup Hcap. eexists. split; [apply markClusters_eq|].
  apply map_eq. intros k.
  change (getAttr (walkVoid (markCallback ctx fallback tf_dialect supported_ops)
                     (gatedBodies st module) st) q k = getAttr st q k).
  rewrite getAttr_mark_walk.
  assert (markedByWalker ctx fallback tf_dialect supported_ops
            (gatedBodies st module) q = false) as ->;
    [|by rewrite andb_false_r].
  apply not_true_is_false. intros Hm.
  apply markedByWalker_spec in Hm as (o' & Hin & Hm).
  apply gatedBodies_in_module in Hin.
  rewrite (walkOperation_functional module q o' o Hin Hq) in Hm.
  by rewrite mustMark_false in Hm.
Qed.

Lemma IsSupportedOp_mono ctx fallback tf_dialect
    (supported_ops supported_ops' : gset OperationName) op :
  supported_ops ⊆ supported_ops' →
  IsSupportedOp ctx fallback op supported_ops tf_dialect = true →
  IsSupportedOp ctx fallback op supported_ops' tf_dialect = true.
Proof.
  intros Hsub. unfold IsSupportedOp, MatchesPattern.
  destruct (negb (bool_decide (getDialect ctx op = tf_dialect))); [done|].
  destruct (negb (HasStringOperand op) && negb (HasStringResult op)); [|done].
  simpl. rewrite !orb_true_iff, !bool_decide_eq_true.
  intros [Hin|Hf]; [left; by apply Hsub|by right].
Qed.

(** X6. A larger supported set never makes the Walker mark more: an
    operation marked after the first walk with the larger set is marked
    after the first walk with the smaller one. *)
Theorem walker_monotone ctx fallback tf_dialect
    (supported_ops supported_ops' : gset OperationName) module st q :
  supported_ops ⊆ supported_ops' →
  marked (markClusters ctx fallback tf_dialect supported_ops' module st).2 q = true →
  marked (markClusters ctx fallback tf_dialect supported_ops module st).2 q = true.
Proof.
  intros Hsub. rewrite !markClusters_eq. simpl. rewrite !marked_mark_walk.
  rewrite !orb_true_iff. intros [Hm|Hm]; [left|by right].
  apply markedByWalker_spec in Hm as (o & Hin & Hm).
  apply markedByWalker_spec. exists o. split; [done|].
  unfold mustMark in *. simpl in *.
  apply orb_true_iff in Hm as [Hm|Hm]; [|by rewrite Hm, orb_true_r].
  apply negb_true_iff in Hm.
  destruct (IsSupportedOp ctx fallback o supported_ops tf_dialect) eqn:Hs; [|done].
  by rewrite (IsSupportedOp_mono _ _ _ _ _ _ Hsub Hs) in Hm.
Qed.

(** X15. Marking twice is marking once: a second first walk over the
    clusters, started from the attributes the first one left, visits the
    same cluster bodies and changes no attribute. *)
Theorem walker_idempotent ctx fallback tf_dialect supported_ops module st q :
  (markClusters ctx fallback tf_dialect supported_ops module
     (markClusters ctx fallback tf_dialect supported_ops module st).2).2 q
  = (markClusters ctx fallback tf_dialect supported_ops module st).2 q.
Proof.
  rewrite !markClusters_eq. simpl.
  rewrite (gatedBodies_ext st
             (walkVoid (markCallback ctx fallback tf_dialect supported_ops)
                (gatedBodies st module) st)).
  - apply map_eq. intros k.
    change (getAttr
              (walkVoid (markCallback ctx fallback tf_dialect supported_ops)
                 (gatedBodies st module)
                 (walkVoid (markCallback ctx fallback tf_dialect supported_ops)
                    (gatedBodies st module) st)) q k
            = getAttr
                (walkVoid (markCallback ctx fallback tf_dialect supported_ops)
                   (gatedBodies st module) st) q k).
    rewrite !getAttr_mark_walk.
    by destruct (_ && _).
  - intros c. rewrite getAttr_mark_walk.
    by rewrite (bool_decide_eq_false_2 _ attr_names_differ).
Qed.

(** ** Further properties of a run of the pass *)

Lemma run_complete ctx fallback populate module st :
  getLoadedDialect ctx "tf" ≠ None → allRooted (populate ctx) →
  ∃ supported_ops,
    buildSupportedOps (populate ctx) = Some supported_ops
    ∧ runOnOperation ctx fallback populate module st
      = Some {| resultAttrs :=
                  afterPruner module st
                    (afterWalker ctx fallback (getLoadedDialect ctx "tf")
                       supported_ops module st);
                diagnostics := []; passFailed := false |}.
Proof.
  intros Hloaded Hall.
  destruct (getLoadedDialect ctx "tf") as [d|] eqn:Hd; [|done].
  destruct (buildSupportedOps_rooted _ Hall) as [supported_ops Hsup].
  exists supported_ops. split; [done|]. by apply runOnOperation_registered.
Qed.

Lemma hasMarkedParent_afterPruner module st st1 q :
  hasMarkedParent (afterPruner module st st1) q = hasMarkedParent st1 q.
Proof. apply hasMarkedParent_unmark_walk. Qed.

Lemma mustMark_spec ctx fallback tf_dialect supported_ops q o :
  mustMark ctx fallback tf_dialect supported_ops (q, o) = true ↔
  IsSupportedOp ctx fallback o supported_ops tf_dialect = false
  ∨ ((getName o = TF.IfRegionOp ∨ getName o = TF.WhileRegionOp)
     ∧ HasCapturedStringOperand (q, o) = true).
Proof.
  unfold mustMark. simpl.
  rewrite orb_true_iff, andb_true_iff, orb_true_iff, negb_true_iff, !isa_spec.
  done.
Qed.

(** X7. After a complete run no operation that the Walker rejects stays on
    the device: every operation of the body of a cluster that allows soft
    placement that [IsSupportedOp] refuses, or that is a conditional or loop
    region capturing a string value, carries the marker or lies below an
    operation that carries it. *)
Theorem pass_covers_unsupported ctx fallback populate module st :
  getLoadedDialect ctx "tf" ≠ None → allRooted (populate ctx) →
  ∃ res supported_ops,
    runOnOperation ctx fallback populate module st = Some res
    ∧ buildSupportedOps (populate ctx) = Some supported_ops
    ∧ ∀ cluster q o,
        cluster ∈ clustersOf module → gated st cluster.1 = true →
        (q, o) ∈ Block_walk (GetBody cluster) →
        IsSupportedOp ctx fallback o supported_ops (getLoadedDialect ctx "tf")
        = false
        ∨ ((getName o = TF.IfRegionOp ∨ getName o = TF.WhileRegionOp)
           ∧ HasCapturedStringOperand (q, o) = true) →
        marked (resultAttrs res) q = true
        ∨ ∃ a, properAncestor a q ∧ marked (resultAttrs res) a = true.
Proof.
  intros Hloaded Hall.
  destruct (run_complete ctx fallback populate module st Hloaded Hall)
    as (supported_ops & Hsup & Hrun).
  eexists _, supported_ops. split; [exact Hrun|]. split; [done|]. simpl.
  intros cluster q o Hc Hg Hq Hreject.
  rewrite <- hasMarkedParent_spec.
  rewrite hasMarkedParent_afterPruner, marked_afterPruner, marked_afterWalker.
  assert (markedByWalker ctx fallback (getLoadedDialect ctx "tf") supported_ops
            (gatedBodies st module) q = true) as ->.
  { apply markedByWalker_spec. exists o. split.
    - apply elem_of_gatedBodies. by exists cluster.
    - by apply mustMark_spec. }
  simpl.
  destruct (hasMarkedParent _ q); [by right|left].
  by rewrite andb_false_r.
Qed.

(** X8. A run writes one attribute only: every attribute other than the
    marker keeps its value on every operation, the soft-placement flags
    among them, and the marker attribute of an operation after the run is
    what it was, or absent, or "auto". *)
Theorem pass_writes_only_marker ctx fallback populate module st :
  allRooted (populate ctx) →
  ∃ res,
    runOnOperation ctx fallback populate module st = Some res
    ∧ (∀ q k, k ≠ kXlaOutsideCompilationAttr →
              getAttr (resultAttrs res) q k = getAttr st q k)
    ∧ (∀ q, getAttr (resultAttrs res) q kXlaOutsideCompilationAttr
            = getAttr st q kXlaOutsideCompilationAttr
            ∨ getAttr (resultAttrs res) q kXlaOutsideCompilationAttr = None
            ∨ getAttr (resultAttrs res) q kXlaOutsideCompilationAttr
              = Some (StringAttr "auto"))
    ∧ ∀ cluster, gated (resultAttrs res) cluster = gated st cluster.
Proof.
  intros Hall.
  destruct (runOnOperation_rooted ctx fallback populate module st Hall)
    as [[_ Hrun]|(d & supported_ops & _ & Hrun)];
    (eexists; split; [exact Hrun|]); simpl; [by auto|].
  assert (∀ q k, k ≠ kXlaOutsideCompilationAttr →
            getAttr (afterPruner module st
                       (afterWalker ctx fallback (Some d) supported_ops module st))
              q k = getAttr st q k) as Hother.
  { intros q k Hk. rewrite getAttr_afterPruner, getAttr_afterWalker.
    by rewrite (bool_decide_eq_false_2 _ Hk). }
  split; [done|]. split.
  - intros q. rewrite getAttr_afterPruner, getAttr_afterWalker.
    destruct (_ && _ && _ && _); [by auto|].
    destruct (_ && _); auto.
  - intros cluster. apply gated_ext, Hother, attr_names_differ.
Qed.

(** X9. A run changes nothing on an operation that does not lie strictly
    inside a cluster that allows soft placement: the module, the functions,
    the clusters of a function and everything in clusters without the flag
    keep their attribute dictionaries; a module none of whose clusters
    allows soft placement comes out as it went in. *)
Theorem outside_gated_clusters_untouched ctx fallback populate module st :
  allRooted (populate ctx) →
  ∃ res,
    runOnOperation ctx fallback populate module st = Some res
    ∧ (∀ q,
         (∀ cluster, cluster ∈ clustersOf module → gated st cluster.1 = true →
                     ¬ properAncestor cluster.1 q) →
         resultAttrs res q = st q)
    ∧ ((∀ cluster, cluster ∈ clustersOf module → gated st cluster.1 = false) →
       ∀ q, resultAttrs res q = st q).
Proof.
  intros Hall.
  destruct (runOnOperation_rooted ctx fallback populate module st Hall)
    as [[_ Hrun]|(d & supported_ops & _ & Hrun)];
    (eexists; split; [exact Hrun|]); simpl; [done|].
  assert (∀ q,
            (∀ cluster, cluster ∈ clustersOf module → gated st cluster.1 = true →
                        ¬ properAncestor cluster.1 q) →
            afterPruner module st
              (afterWalker ctx fallback (Some d) supported_ops module st) q
            = st q) as Hframe.
  { intros q Hout. apply map_eq. intros k. apply unvisited_unchanged.
    intros ([q' o] & Heq & Hin)%list_elem_of_fmap. simpl in Heq. subst q'.
    apply elem_of_gatedBodies in Hin as (g & Hg & Hgated & Hin).
    apply body_properAncestor in Hin. by apply (Hout g). }
  split; [done|].
  intros Hnone q. apply Hframe. intros cluster Hc Hg.
  rewrite (Hnone cluster Hc) in Hg. done.
Qed.

(** ** The supported set and the captured-value test *)

(** X10. With every pattern rooted, the supported set is built, and
    [MatchesPattern] accepts exactly the operations whose kind is one of the
    five fixed kinds or the root kind of a pattern of the catalog. *)
Theorem supported_set_contents patterns :
  allRooted patterns →
  ∃ supported_ops,
    buildSupportedOps patterns = Some supported_ops
    ∧ ∀ op,
        MatchesPattern op supported_ops = true ↔
        getName op ∈ [TF.IfRegionOp; TF.WhileRegionOp; TF.YieldOp;
                      TF.RecvTPUEmbeddingActivationsOp;
                      TF.SendTPUEmbeddingGradientsOp]
        ∨ ∃ pattern, pattern ∈ patterns
                     ∧ getRootKind pattern = Some (getName op).
Proof.
  intros Hall.
  destruct (buildSupportedOps_contents patterns Hall) as (supported_ops & Hb & Hin).
  exists supported_ops. split; [done|]. intros op.
  unfold MatchesPattern. rewrite bool_decide_eq_true. apply Hin.
Qed.

(** X11. The supported set depends on which patterns the catalog holds,
    not on their order or on how often each one occurs: two catalogs with
    the same patterns give the same set, or both give none. *)
Theorem supported_set_ignores_order patterns patterns' :
  (∀ pattern, pattern ∈ patterns ↔ pattern ∈ patterns') →
  buildSupportedOps patterns = buildSupportedOps patterns'.
Proof.
  intros Hsame. unfold allRooted in *.
  destruct (decide (allRooted patterns)) as [Hall|Hnot].
  - assert (allRooted patterns') as Hall'.
    { apply Forall_forall. intros p Hp. apply Hsame in Hp.
      by apply (proj1 (Forall_forall _ _) Hall). }
    destruct (buildSupportedOps_contents patterns Hall) as (s & -> & Hs).
    destruct (buildSupportedOps_contents patterns' Hall') as (s' & -> & Hs').
    f_equal. apply set_eq. intros kind. rewrite Hs, Hs'.
    by setoid_rewrite Hsame.
  - assert (¬ allRooted patterns') as Hnot'.
    { intros Hall'. apply Hnot. apply Forall_forall. intros p Hp.
      apply Hsame in Hp. by apply (proj1 (Forall_forall _ _) Hall'). }
    unfold buildSupportedOps.
    by rewrite (insertRootKinds_rootless _ _ Hnot),
      (insertRootKinds_rootless _ _ Hnot').
Qed.

(** X12. [HasCapturedStringOperand] answers true exactly when some region
    of the operation holds an operation with an operand of string element
    type whose value is defined in a region that properly encloses the
    operation: a string value defined and used inside the regions does not
    count, nor does a captured value of another type. *)
Theorem captured_string_operand_iff q o :
  HasCapturedStringOperand (q, o) = true ↔
  ∃ r region user v reg,
    getRegions o !! r = Some region
    ∧ user ∈ walkRegion q r region ∧ v ∈ getOperands user.2
    ∧ Value_getParentRegion v = Some reg ∧ reg ∈ properAncestors q
    ∧ getElementTypeOrSelf (getType v) = StringType.
Proof. apply HasCapturedStringOperand_spec. Qed.

(** X13. The kinds the pass always supports are never marked for
    themselves: an operation of the module of one of the five fixed kinds
    that has no string operand or result and captures no string value has
    its marker attribute unchanged or removed by a run, whatever the
    catalog and the fallback say. *)
Theorem fixed_kinds_never_marked ctx fallback populate module st :
  allRooted (populate ctx) →
  ∃ res,
    runOnOperation ctx fallback populate module st = Some res
    ∧ ∀ q o,
        (q, o) ∈ walkOperation [] module →
        getName o ∈ [TF.IfRegionOp; TF.WhileRegionOp; TF.YieldOp;
                     TF.RecvTPUEmbeddingActivationsOp;
                     TF.SendTPUEmbeddingGradientsOp] →
        HasStringOperand o = false → HasStringResult o = false →
        HasCapturedStringOperand (q, o) = false →
        getAttr (resultAttrs res) q kXlaOutsideCompilationAttr
        = getAttr st q kXlaOutsideCompilationAttr
        ∨ getAttr (resultAttrs res) q kXlaOutsideCompilationAttr = None.
Proof.
  intros Hall.
  destruct (getLoadedDialect ctx "tf") as [d|] eqn:Hd; cycle 1.
  { eexists. split; [by apply runOnOperation_unregistered|]. simpl. auto. }
  destruct (buildSupportedOps_contents _ Hall) as (supported_ops & Hsup & Hin).
  eexists. split; [by apply runOnOperation_registered|]. simpl.
  intros q o Hq Hkind Hoperand Hresult Hcap.
  assert (markedByWalker ctx fallback (Some d) supported_ops
            (gatedBodies st module) q = false) as Hnot.
  { apply not_true_is_false. intros Hm.
    apply markedByWalker_spec in Hm as (o' & Hin' & Hm).
    apply gatedBodies_in_module in Hin'.
    rewrite (walkOperation_functional module q o' o Hin' Hq) in Hm.
    rewrite mustMark_false in Hm; [done| |done].
    unfold IsSupportedOp, MatchesPattern.
    destruct (negb (bool_decide (getDialect ctx o = Some d))); [done|].
    rewrite Hoperand, Hresult. simpl.
    rewrite bool_decide_eq_true_2; [done|]. apply Hin. by left. }
  rewrite getAttr_afterPruner, getAttr_afterWalker, Hnot, andb_false_r.
  destruct (_ && _ && _ && _); auto.
Qed.

(** X14. The markers a complete run leaves, in terms of what it was given:
    an operation carries the marker afterwards exactly when it carried it
    before or the Walker sets it, unless the operation lies in the body of
    a cluster that allows soft placement and a strict ancestor carried the
    marker before or has it set by the Walker. *)
Theorem pass_final_markers ctx fallback populate module st :
  getLoadedDialect ctx "tf" ≠ None → allRooted (populate ctx) →
  ∃ res supported_ops,
    runOnOperation ctx fallback populate module st = Some res
    ∧ buildSupportedOps (populate ctx) = Some supported_ops
    ∧ ∀ q,
        marked (resultAttrs res) q = true ↔
        (marked st q = true
         ∨ walkerRejects ctx fallback (getLoadedDialect ctx "tf") supported_ops
             module st q)
        ∧ ¬ ((∃ o, (q, o) ∈ gatedBodies st module)
             ∧ ∃ a, properAncestor a q
                    ∧ (marked st a = true
                       ∨ walkerRejects ctx fallback (getLoadedDialect ctx "tf")
                           supported_ops module st a)).
Proof.
  intros Hloaded Hall.
  destruct (run_complete ctx fallback populate module st Hloaded Hall)
    as (supported_ops & Hsup & Hrun).
  eexists _, supported_ops. split; [exact Hrun|]. split; [done|]. simpl.
  set (tf := getLoadedDialect ctx "tf").
  set (st1 := afterWalker ctx fallback tf supported_ops module st).
  assert (∀ p, markedByWalker ctx fallback tf supported_ops
                 (gatedBodies st module) p = true
               ↔ walkerRejects ctx fallback tf supported_ops module st p) as HW.
  { intros p. apply markedByWalker_spec. }
  assert (∀ p, marked st1 p = true
               ↔ marked st p = true
                 ∨ walkerRejects ctx fallback tf supported_ops module st p) as H1.
  { intros p. unfold st1. rewrite marked_afterWalker, orb_true_iff, HW. tauto. }
  intros q. rewrite marked_afterPruner. fold st1.
  rewrite andb_true_iff, negb_true_iff, H1.
  assert (bool_decide (q ∈ (gatedBodies st module).*1) && hasMarkedParent st1 q
          = false
          ↔ ¬ ((∃ o, (q, o) ∈ gatedBodies st module)
               ∧ ∃ a, properAncestor a q
                      ∧ (marked st a = true
                         ∨ walkerRejects ctx fallback tf supported_ops module st a)))
    as ->; [|done].
  rewrite andb_false_iff, bool_decide_eq_false, <- not_true_iff_false.
  rewrite hasMarkedParent_spec. setoid_rewrite H1.
  rewrite list_elem_of_fmap. split.
  - intros [Hq|Ha] [[o Ho] Hanc]; [|done].
    apply Hq. by exists (q, o).
  - intros Hnot.
    destruct (decide (q ∈ (gatedBodies st module).*1)) as [Hq|Hq].
    + right. intros Hanc. apply Hnot. split; [|done].
      apply list_elem_of_fmap in Hq as ([q' o] & Heq & Ho).
      simpl in Heq. subst q'. by exists o.
    + left. intros Hq'. apply Hq. by apply list_elem_of_fmap.
Qed.

(** ** The further properties at work on the example modules *)

Lemma walker_skips_supported_witness :
  ∃ st',
    markClusters tfContext noFallback (getLoadedDialect tfContext "tf")
      (AddSupportedControlFlowOps ∅) loopModule softPlacementOnFirst
    = (advance, st')
    ∧ st' ((0, 0, 1) :: loopPtr) = softPlacementOnFirst ((0, 0, 1) :: loopPtr).
Proof.
  apply (walker_skips_supported tfContext noFallback
           (getLoadedDialect tfContext "tf") (AddSupportedControlFlowOps ∅)
           loopModule softPlacementOnFirst ((0, 0, 1) :: loopPtr) condYield).
  - in_list.
  - vm_compute. reflexivity.
  - intros [Hkind|Hkind]; discriminate Hkind.
Defined.

Lemma walker_monotone_witness :
  marked
    (markClusters tfContext noFallback (getLoadedDialect tfContext "tf") ∅
       loopModule softPlacementOnFirst).2 ((0, 0, 0) :: firstCluster) = true.
Proof.
  apply (walker_monotone tfContext noFallback (getLoadedDialect tfContext "tf")
           ∅ (AddSupportedControlFlowOps ∅) loopModule softPlacementOnFirst
           ((0, 0, 0) :: firstCluster)).
  - apply empty_subseteq.
  - vm_compute. reflexivity.
Defined.

Lemma pass_covers_unsupported_witness :
  ∃ res,
    runOnOperation tfContext noFallback emptyCatalog nestedUnsupported
      softPlacementOnFirst = Some res
    ∧ (marked (resultAttrs res) ((0, 0, 0) :: (0, 0, 0) :: firstCluster) = true
       ∨ ∃ a, properAncestor a ((0, 0, 0) :: (0, 0, 0) :: firstCluster)
              ∧ marked (resultAttrs res) a = true).
Proof.
  destruct (pass_covers_unsupported tfContext noFallback emptyCatalog
              nestedUnsupported softPlacementOnFirst)
    as (res & supported_ops & Hrun & Hsup & Hcover).
  - vm_compute. discriminate.
  - constructor.
  - exists res. split; [exact Hrun|].
    apply (Hcover (firstCluster, softCluster)
             ((0, 0, 0) :: (0, 0, 0) :: firstCluster) innerUnsupported).
    + in_list.
    + vm_compute. reflexivity.
    + in_list.
    + left.
      change (match Some supported_ops with
              | Some s => IsSupportedOp tfContext noFallback innerUnsupported s
                            (getLoadedDialect tfContext "tf")
              | None => false
              end = false).
      rewrite <- Hsup. vm_compute. reflexivity.
Defined.

Lemma pass_writes_only_marker_witness :
  ∃ res,
    runOnOperation tfContext noFallback emptyCatalog nestedUnsupported
      softPlacementOnFirst = Some res
    ∧ getAttr (resultAttrs res) firstCluster kAllowSoftPlacementAttr
      = Some (BoolAttr true).
Proof.
  destruct (pass_writes_only_marker tfContext noFallback emptyCatalog
              nestedUnsupported softPlacementOnFirst)
    as (res & Hrun & Hother & _).
  - constructor.
  - exists res. split; [exact Hrun|].
    rewrite (Hother firstCluster kAllowSoftPlacementAttr attr_names_differ).
    vm_compute. reflexivity.
Defined.

Lemma outside_gated_clusters_untouched_witness :
  ∃ res,
    runOnOperation tfContext noFallback emptyCatalog twoClusters
      softPlacementOnFirst = Some res
    ∧ resultAttrs res ((0, 0, 0) :: secondCluster)
      = softPlacementOnFirst ((0, 0, 0) :: secondCluster).
Proof.
  destruct (outside_gated_clusters_untouched tfContext noFallback emptyCatalog
              twoClusters softPlacementOnFirst)
    as (res & Hrun & Hframe & _).
  - constructor.
  - exists res. split; [exact Hrun|].
    apply Hframe. intros cluster _ Hg.
    apply softPlacementOnFirst_gated in Hg. rewrite Hg.
    intros Hanc. not_ancestor Hanc.
Defined.

Lemma supported_set_contents_witness :
  ∃ supported_ops,
    buildSupportedOps [rootedPattern "tf.AddV2"] = Some supported_ops
    ∧ MatchesPattern (mkOperation "tf.AddV2" [] [] []) supported_ops = true
    ∧ MatchesPattern condYield supported_ops = true.
Proof.
  destruct (supported_set_contents [rootedPattern "tf.AddV2"])
    as (supported_ops & Hbuild & Hmatch).
  - repeat constructor. by exists "tf.AddV2".
  - exists supported_ops. split; [exact Hbuild|]. split; apply Hmatch.
    + right. exists (rootedPattern "tf.AddV2"). split; [by left|done].
    + left. in_list.
Defined.

Lemma supported_set_ignores_order_witness :
  buildSupportedOps [rootedPattern "tf.AddV2"; rootedPattern "tf.Mul"]
  = buildSupportedOps
      [rootedPattern "tf.Mul"; rootedPattern "tf.AddV2"; rootedPattern "tf.Mul"].
Proof.
  apply supported_set_ignores_order. intros pattern.
  rewrite !elem_of_cons, elem_of_nil. tauto.
Defined.

Lemma fixed_kinds_never_marked_witness :
  ∃ res,
    runOnOperation tfContext noFallback emptyCatalog loopModule
      softPlacementOnFirst = Some res
    ∧ getAttr (resultAttrs res) ((0, 0, 1) :: loopPtr) kXlaOutsideCompilationAttr
      = None.
Proof.
  destruct (fixed_kinds_never_marked tfContext noFallback emptyCatalog
              loopModule softPlacementOnFirst)
    as (res & Hrun & Hfixed).
  - constructor.
  - exists res. split; [exact Hrun|].
    destruct (Hfixed ((0, 0, 1) :: loopPtr) condYield) as [Hsame|Hnone].
    + in_list.
    + in_list.
    + reflexivity.
    + reflexivity.
    + reflexivity.
    + rewrite Hsame. vm_compute. reflexivity.
    + exact Hnone.
Defined.

Lemma pass_final_markers_witness :
  ∃ res supported_ops,
    runOnOperation tfContext noFallback emptyCatalog nestedUnsupported
      softPlacementOnFirst = Some res
    ∧ buildSupportedOps (emptyCatalog tfContext) = Some supported_ops
    ∧ marked (resultAttrs res) ((0, 0, 0) :: firstCluster) = true
    ∧ (marked softPlacementOnFirst ((0, 0, 0) :: firstCluster) = true
       ∨ walkerRejects tfContext noFallback (getLoadedDialect tfContext "tf")
           supported_ops nestedUnsupported softPlacementOnFirst
           ((0, 0, 0) :: firstCluster)).
Proof.
  destruct (pass_final_markers tfContext noFallback emptyCatalog
              nestedUnsupported softPlacementOnFirst)
    as (res & supported_ops & Hrun & Hsup & Hfinal).
  - vm_compute. discriminate.
  - constructor.
  - exists res, supported_ops. split; [exact Hrun|]. split; [exact Hsup|].
    assert (marked (resultAttrs res) ((0, 0, 0) :: firstCluster) = true) as Hm.
    { change (match Some res with
              | Some r => marked (resultAttrs r) ((0, 0, 0) :: firstCluster)
              | None => false
              end = true).
      rewrite <- Hrun. vm_compute. reflexivity. }
    split; [exact Hm|]. by apply Hfinal in Hm as [Hm _].
Defined.
